(** * People on the Move: the article classification and extraction core

    A shallow embedding of [src/aggregator/parsers.py], of the vocabularies
    of [src/aggregator/rss_sources.py] and of the URL de-duplication passes
    of [src/aggregator/news_fetcher.py], with the properties the
    specification states about them.

    Modelling conventions.
    - A Python [str] is a [text], a list of characters.  The model covers
      ASCII text: [lower], [\w], [\s] and [isupper] are the ASCII
      restrictions of the Python operations.
    - The regular expressions of the source are values of [regex], run by a
      backtracking matcher that explores alternatives in the order of
      Python's [re] (left alternative first, greedy repetition first) and
      reports the leftmost match, as [re.search] does.
    - Exceptions are explicit: a computation that may raise returns a
      [result].
    - The libraries the source calls (BeautifulSoup's text extraction,
      dateutil's parser) and the clock are parameters of the model. *)

From Stdlib Require Import List Ascii String ZArith Bool Arith Lia.
Import ListNotations.


(* ================================================================= *)
(** ** Text *)

Definition text := list ascii.

Definition str (s : string) : text := list_ascii_of_string s.
Coercion str : string >-> text.

Definition code (c : ascii) : nat := nat_of_ascii c.

Definition in_range (lo hi : nat) (c : ascii) : bool :=
  (lo <=? code c) && (code c <=? hi).

Definition is_upper : ascii -> bool := in_range 65 90.
Definition is_lower : ascii -> bool := in_range 97 122.
Definition is_digit : ascii -> bool := in_range 48 57.

(** [\w] on ASCII text. *)
Definition is_word (c : ascii) : bool :=
  is_upper c || is_lower c || is_digit c || (code c =? 95).

(** [\s], [str.split()] and [str.strip()] whitespace on ASCII text:
    tab, newline, vertical tab, form feed, carriage return, the four
    separators 0x1c-0x1f and the space. *)
Definition is_space (c : ascii) : bool :=
  in_range 9 13 c || in_range 28 32 c.

Definition to_lower (c : ascii) : ascii :=
  if is_upper c then ascii_of_nat (code c + 32) else c.

(** [s.lower()] *)
Definition lower (s : text) : text := map to_lower s.

Definition text_eqb (a b : text) : bool :=
  if list_eq_dec ascii_dec a b then true else false.

(** [x in S] for a set or list of strings *)
Definition mem (x : text) (l : list text) : bool := existsb (text_eqb x) l.

Fixpoint starts_with (p s : text) : bool :=
  match p, s with
  | [], _ => true
  | _ :: _, [] => false
  | a :: p', b :: s' => Ascii.eqb a b && starts_with p' s'
  end.

(** [needle in hay] for strings *)
Fixpoint contains (needle hay : text) : bool :=
  starts_with needle hay ||
  match hay with
  | [] => false
  | _ :: hay' => contains needle hay'
  end.

(** [s[a:b]] for [0 <= a], [0 <= b] *)
Definition slice (s : text) (a b : nat) : text := firstn (b - a) (skipn a s).

Fixpoint lstrip (s : text) : text :=
  match s with
  | c :: s' => if is_space c then lstrip s' else s
  | [] => []
  end.

Definition rstrip (s : text) : text := rev (lstrip (rev s)).

(** [s.strip()] *)
Definition strip (s : text) : text := rstrip (lstrip s).

(** [s.split()]: the maximal runs of non-whitespace characters.  [cur] is
    the word being read, reversed. *)
Fixpoint split_aux (cur : text) (s : text) : list text :=
  match s with
  | [] => match cur with [] => [] | _ => [rev cur] end
  | c :: s' =>
      if is_space c
      then match cur with
           | [] => split_aux [] s'
           | _ => rev cur :: split_aux [] s'
           end
      else split_aux (c :: cur) s'
  end.

Definition split (s : text) : list text := split_aux [] s.

(** [s.isupper()]: some cased character, and no lower-case one. *)
Definition isupper (s : text) : bool :=
  existsb is_upper s && negb (existsb is_lower s).

(* ================================================================= *)
(** ** Regular expressions *)

Module Re.

Inductive regex : Type :=
| Eps
| Cls (p : ascii -> bool)
| Seq (a b : regex)
| Alt (a b : regex)
| Star (a : regex)
| Grp (a : regex)
| Bol
| WordB.

(** The matcher's state: the offset reached, the character before it, the
    rest of the subject and the span of group 1. *)
Record mstate : Type := MState {
  pos : nat;
  prev : option ascii;
  rest : text;
  grp : option (nat * nat)
}.

Definition advance (c : ascii) (t : text) (s : mstate) : mstate :=
  MState (S (pos s)) (Some c) t (grp s).

Definition set_grp (a : nat) (s : mstate) : mstate :=
  MState (pos s) (prev s) (rest s) (Some (a, pos s)).

Definition word_opt (o : option ascii) : bool :=
  match o with Some c => is_word c | None => false end.

Definition at_boundary (s : mstate) : bool :=
  xorb (word_opt (prev s)) (word_opt (hd_error (rest s))).

(** [run r k s]: match [r] from [s], then continue with [k]; [None] makes
    the matcher backtrack.  A repetition makes at most one iteration per
    remaining character, each of which has to consume input. *)
Fixpoint run (r : regex) (k : mstate -> option mstate) (s : mstate)
  : option mstate :=
  match r with
  | Eps => k s
  | Cls p =>
      match rest s with
      | c :: t => if p c then k (advance c t s) else None
      | [] => None
      end
  | Seq a b => run a (run b k) s
  | Alt a b =>
      match run a k s with
      | Some x => Some x
      | None => run b k s
      end
  | Star a =>
      (fix loop (n : nat) (s : mstate) : option mstate :=
         match n with
         | O => k s
         | S n' =>
             match run a (fun s' => if pos s <? pos s' then loop n' s' else None) s with
             | Some x => Some x
             | None => k s
             end
         end) (List.length (rest s)) s
  | Grp a => run a (fun s' => k (set_grp (pos s) s')) s
  | Bol => if pos s =? 0 then k s else None
  | WordB => if at_boundary s then k s else None
  end.

(** A match object: [start()], [end()] and the span of group 1. *)
Record rmatch : Type := RMatch {
  m_start : nat;
  m_end : nat;
  m_grp : option (nat * nat)
}.

Definition match_at (r : regex) (s : mstate) : option rmatch :=
  match run r Some s with
  | Some s' => Some (RMatch (pos s) (pos s') (grp s'))
  | None => None
  end.

Fixpoint search_from (r : regex) (p : nat) (pv : option ascii) (t : text)
  : option rmatch :=
  match match_at r (MState p pv t None) with
  | Some m => Some m
  | None =>
      match t with
      | [] => None
      | c :: t' => search_from r (S p) (Some c) t'
      end
  end.

(** [re.search(r, t)] *)
Definition search (r : regex) (t : text) : option rmatch :=
  search_from r 0 None t.

(** [m.group()] and [m.group(1)] *)
Definition group0 (t : text) (m : rmatch) : text := slice t (m_start m) (m_end m).

Definition group1 (t : text) (m : rmatch) : text :=
  match m_grp m with
  | Some (a, b) => slice t a b
  | None => []
  end.

(** *** Pattern syntax *)

Definition Plus (a : regex) : regex := Seq a (Star a).
Definition Opt (a : regex) : regex := Alt a Eps.

Fixpoint seqs (l : list regex) : regex :=
  match l with
  | [] => Eps
  | [a] => a
  | a :: l' => Seq a (seqs l')
  end.

Fixpoint alts (l : list regex) : regex :=
  match l with
  | [] => Cls (fun _ => false)
  | [a] => a
  | a :: l' => Alt a (alts l')
  end.

Definition chr (c : ascii) : regex := Cls (Ascii.eqb c).
Definition chr_ci (c : ascii) : regex := Cls (fun d => Ascii.eqb (to_lower c) (to_lower d)).

(** A literal, and a literal under [re.IGNORECASE]. *)
Definition lit (t : text) : regex := seqs (map chr t).
Definition lit_ci (t : text) : regex := seqs (map chr_ci t).

Definition words (l : list string) : regex := alts (map (fun w => lit (str w)) l).
Definition words_ci (l : list string) : regex := alts (map (fun w => lit_ci (str w)) l).

Definition upper : regex := Cls is_upper.
Definition lowers : regex := Plus (Cls is_lower).
Definition spaces : regex := Plus (Cls is_space).
Definition wordchars : regex := Plus (Cls is_word).

End Re.
Import Re.

(* ================================================================= *)
(** ** Vocabularies ([rss_sources.py]) *)

Definition EXECUTIVE_KEYWORDS : list text := map str [
  "appointed"; "promoted"; "named"; "joins"; "hires"; "hired";
  "new ceo"; "new president"; "new chief"; "new vp";
  "new vice president"; "new director"; "announces"; "leadership";
  "executive"; "succession"; "steps down"; "retires"; "takes over";
  "taps"; "elevates"; "selects"; "names"; "appoints"
]%string.

Definition EXECUTIVE_TITLES : list text := map str [
  "CEO"; "Chief Executive Officer"; "President"; "COO";
  "Chief Operating Officer"; "CFO"; "Chief Financial Officer"; "CMO";
  "Chief Marketing Officer"; "CTO"; "Chief Technology Officer"; "CIO";
  "Chief Information Officer"; "CHRO"; "Chief Human Resources Officer";
  "Chief Supply Chain Officer"; "Chief Commercial Officer";
  "Chief Revenue Officer"; "Chief Sales Officer"; "Chief Strategy Officer";
  "Vice President"; "VP"; "SVP"; "Senior Vice President"; "EVP";
  "Executive Vice President"; "Group Vice President";
  "Regional Vice President"; "VP of Sales"; "VP of Marketing";
  "VP of Operations"; "VP of Finance"; "VP of Human Resources";
  "VP of Supply Chain"; "VP of Manufacturing"; "VP of Procurement";
  "VP of Quality"; "VP of R&D"; "VP of Research";
  "Director"; "Senior Director"; "Executive Director"; "Managing Director";
  "Regional Director"; "Director of Sales"; "Director of Marketing";
  "Director of Operations"; "Director of Finance";
  "General Manager"; "Plant Manager"; "Division President";
  "Business Unit President";
  "Chairman"; "Board Member"; "Board Director"
]%string.

(* ================================================================= *)
(** ** The classifier ([ArticleParser.is_executive_move]) *)

(** [re.compile(rf'\b{re.escape(title)}\b', re.IGNORECASE)] *)
Definition title_pattern (title : text) : regex :=
  seqs [WordB; lit_ci title; WordB].

(** [_build_title_patterns] *)
Definition title_patterns : list regex := map title_pattern EXECUTIVE_TITLES.

Definition is_some {A} (o : option A) : bool :=
  match o with Some _ => true | None => false end.

Definition sp : text := [" "%char].

Definition is_executive_move (title content : text) : bool :=
  let combined_text := lower (title ++ sp ++ content) in
  let keyword_match := existsb (fun kw => contains kw combined_text) EXECUTIVE_KEYWORDS in
  if negb keyword_match then false
  else existsb (fun p => is_some (search p combined_text)) title_patterns.

Open Scope string_scope.
Open Scope nat_scope.
Open Scope list_scope.

(* ================================================================= *)
(** ** The name validation gate ([parsers.py]) *)

Definition FALSE_POSITIVE_NAMES : list text := map str [
  "supermarket news"; "progressive grocer"; "grocery dive"; "food dive";
  "meat poultry"; "meat + poultry"; "reuters"; "associated press"; "ap news";
  "business wire"; "pr newswire"; "globe newswire"; "cision"; "yahoo finance";
  "wall street journal"; "new york times"; "bloomberg"; "cnbc"; "fox business";
  "food business news"; "food navigator"; "the packer"; "produce news";
  "watt poultry"; "national provisioner"; "perishable news"; "spectrum news";
  "xavier newswire"; "investment executive"; "industry dive";
  "quietly setting up"; "business chief"; "warns of"; "brings walmart experience";
  "walmart executive"; "settled this lawsuit"; "grocery chain"; "retail giant";
  "food company"; "meat company"; "industry veteran"; "company announces";
  "press release"; "news release"; "breaking news"; "just announced";
  "read more"; "click here"; "learn more"; "see more"; "view all";
  "president trump"; "president biden"; "president obama";
  "greg foran takes"; "brings experience"; "takes helm"; "steps down";
  "steps up"; "moves up"; "moves on"; "stepping down"; "stepping up";
  "butterball farms"; "tyson foods"; "hormel foods"; "cargill inc";
  "jbs usa"; "smithfield foods"; "pilgrim pride"; "perdue farms";
  "conagra brands"; "kraft heinz"; "general mills"; "kellogg company";
  "nestle usa"; "unilever usa"; "pepsico inc"; "coca cola";
  "new ceo"; "new president"; "new cfo"; "new coo"; "next ceo";
  "its next ceo"; "new hire"; "top executive"; "senior executive";
  "board member"; "board director"; "company executive"
].

Definition INVALID_FIRST_WORDS : list text := map str [
  "the"; "a"; "an"; "new"; "former"; "current"; "acting"; "interim";
  "its"; "their"; "our"; "your"; "his"; "her"; "this"; "that";
  "brings"; "quietly"; "business"; "walmart"; "kroger"; "tyson";
  "supermarket"; "progressive"; "grocery"; "food"; "meat"; "industry";
  "company"; "corporate"; "executive"; "president"; "investment";
  "retail"; "wholesale"; "breaking"; "just"; "press"; "news";
  "warns"; "settled"; "takes"; "steps"; "moves"; "stepping";
  "read"; "click"; "learn"; "see"; "view"; "get"; "how"; "why";
  "what"; "when"; "where"; "who"; "which"; "here"; "there";
  "vet"; "veteran"; "longtime"; "seasoned"; "senior"; "junior";
  "chief"; "ceo"; "cfo"; "coo"; "cto"; "cmo"; "vp"; "svp"; "evp";
  "director"; "manager"; "head"; "leader"; "founder"; "owner"
].

Definition INVALID_LAST_WORDS : list text := map str [
  "news"; "grocer"; "dive"; "wire"; "times"; "journal"; "post";
  "tribune"; "herald"; "gazette"; "press"; "media"; "report";
  "foods"; "farms"; "inc"; "corp"; "corporation"; "company"; "co";
  "llc"; "ltd"; "group"; "holdings"; "brands"; "products";
  "experience"; "chief"; "executive"; "lawsuit"; "helm";
  "ceo"; "cfo"; "coo"; "cto"; "cmo"; "vp"; "svp"; "evp";
  "up"; "down"; "on"; "off"; "out"; "in"; "here"; "there"
].

Definition publication_second_words : list text := map str [
  "news"; "dive"; "wire"; "grocer"; "times"; "journal";
  "post"; "tribune"; "herald"; "gazette"; "foods";
  "farms"; "brands"; "executive"
].

Definition verbs_as_names : list text := map str [
  "promoted"; "appointed"; "named"; "hired"; "takes";
  "joins"; "becomes"; "steps"; "moves"; "brings"
].

Definition political_names : list text := map str [
  "trump"; "biden"; "obama"; "bush"; "clinton"
].

Definition non_name_middle_words : list text := map str [
  "and"; "or"; "the"; "of"; "for"; "at"; "in"; "on";
  "to"; "as"; "its"; "their"; "new"; "next"
].

Definition nonempty (s : text) : bool :=
  match s with [] => false | _ => true end.

(** [words[0]], [words[1]] and [words[-1]]; the gate reads them only after
    it has checked that there are at least two words. *)
Definition word0 (ws : list text) : text := hd [] ws.
Definition word1 (ws : list text) : text := nth 1 ws [].
Definition word_last (ws : list text) : text := last ws [].

(** [words[1:-1] if len(words) > 2 else []] *)
Definition middle_words (ws : list text) : list text :=
  if 2 <? List.length ws then removelast (tl ws) else [].

Definition _is_valid_person_name (name : text) : bool :=
  if negb (nonempty name) then false
  else if mem (lower name) FALSE_POSITIVE_NAMES then false
  else
    let ws := split name in
    if negb ((2 <=? List.length ws) && (List.length ws <=? 4)) then false
    else if mem (lower (word0 ws)) INVALID_FIRST_WORDS then false
    else if mem (lower (word_last ws)) INVALID_LAST_WORDS then false
    else if isupper (word0 ws) && (1 <? List.length (word0 ws)) then false
    else if (2 <=? List.length ws) && mem (lower (word1 ws)) publication_second_words
         then false
    else if mem (lower (word_last ws)) verbs_as_names then false
    else if (2 <=? List.length ws) && text_eqb (lower (word0 ws)) "president"
            && mem (lower (word1 ws)) political_names
         then false
    else if existsb (fun w => mem (lower w) non_name_middle_words
                              && (List.length w <=? 3)) (middle_words ws)
         then false
    else true.

(* ================================================================= *)
(** ** The name extractor ([ArticleParser.extract_person_name]) *)

(** [([A-Z][a-z]+\s+(?:[A-Z]\.?\s+)?[A-Z][a-z]+(?:\s+[A-Z][a-z]+)?)] *)
Definition name_body : regex :=
  seqs [upper; lowers; spaces;
        Opt (seqs [upper; Opt (chr "."); spaces]);
        upper; lowers;
        Opt (seqs [spaces; upper; lowers])].

Definition name_group : regex := Grp name_body.

Definition title_words : list string :=
  ["CEO"; "President"; "CFO"; "COO"; "VP"; "Director"].

Definition name_patterns : list regex := [
  (* "Appoints/Names John Smith as..." *)
  seqs [words ["Appoints"; "Names"; "Taps"; "Hires"; "Promotes"; "Selects"; "Elevates"];
        spaces; name_group; spaces; words ["as"; "to"; "for"; "Group"]];
  (* "Appointment of John Smith..." *)
  seqs [lit "Appointment"; spaces; lit "of"; spaces; name_group];
  (* "John Smith has been appointed..." *)
  seqs [Bol; name_group; spaces; words ["has been"; "was"; "is"; "will"]];
  (* "...appointed John Smith as..." *)
  seqs [alts [lit "appointed"; lit "named"; lit "hired";
              Seq (lit "promote") (Opt (chr "s"));
              lit "taps"; lit "selects"; lit "elevates"];
        spaces; name_group; spaces; words ["as"; "to"; "for"]];
  (* "...welcomes John Smith..." *)
  seqs [alts [Seq (lit "welcome") (Opt (chr "s"));
              Seq (lit "announce") (Opt (chr "s"))];
        spaces; name_group];
  (* "John Smith joins..." *)
  seqs [name_group; spaces;
        words ["joins"; "named"; "appointed"; "to lead"; "to head"; "becomes"]];
  (* "John Smith, CEO..." *)
  seqs [name_group; Opt (chr ","); spaces; words ["the new"; "new"; "as"; "named"]];
  (* "CEO John Smith..." *)
  seqs [words title_words; spaces; name_group];
  (* "...names John Smith CEO..." *)
  seqs [lit "names"; spaces; name_group; spaces; words (title_words ++ ["Chief"])%list];
  (* "...John Smith to CEO..." *)
  seqs [name_group; spaces; lit "to"; spaces; words (title_words ++ ["Chief"])%list];
  (* "...hires John Smith..." *)
  seqs [lit "hires"; spaces; name_group];
  (* "John Smith promoted..." *)
  seqs [name_group; spaces; words ["promoted"; "elevated"; "tapped"]]
].

(** One turn of the loop over the patterns: the stripped capture of the
    leftmost match of [p], when there is a match and the capture passes the
    gate. *)
Definition try_pattern (p : regex) (t : text) : option text :=
  match search p t with
  | Some m =>
      let name := strip (group1 t m) in
      if _is_valid_person_name name then Some name else None
  | None => None
  end.

Fixpoint first_name (ps : list regex) (t : text) : option text :=
  match ps with
  | [] => None
  | p :: ps' =>
      match try_pattern p t with
      | Some name => Some name
      | None => first_name ps' t
      end
  end.

Definition extract_person_name (t : text) : option text :=
  first_name name_patterns t.

(* ================================================================= *)
(** ** The title extractor ([ArticleParser.extract_title]) *)

(** [(?:as|to|new)\s+((?:\w+\s+)*{re.escape(match.group())}(?:\s+of\s+\w+)?)]
    under [re.IGNORECASE] *)
Definition full_title_pattern (matched : text) : regex :=
  seqs [words_ci ["as"; "to"; "new"]; spaces;
        Grp (seqs [Star (Seq wordchars spaces);
                   lit_ci matched;
                   Opt (seqs [spaces; lit_ci "of"; spaces; wordchars])])].

(** The body of the loop once [pattern.search(text)] has returned [m]. *)
Definition widen_title (t : text) (m : rmatch) : text :=
  let start := m_start m - 50 in
  let stop := Nat.min (List.length t) (m_end m + 50) in
  let context := slice t start stop in
  match search (full_title_pattern (group0 t m)) context with
  | Some fm => strip (group1 context fm)
  | None => group0 t m
  end.

Fixpoint first_title (ps : list regex) (t : text) : option text :=
  match ps with
  | [] => None
  | p :: ps' =>
      match search p t with
      | Some m => Some (widen_title t m)
      | None => first_title ps' t
      end
  end.

Definition extract_title (t : text) : option text :=
  first_title title_patterns t.

(* ================================================================= *)
(** ** The action classifier ([ArticleParser.extract_action]) *)

Definition extract_action (t : text) : text :=
  let text_lower := lower t in
  if contains "promoted" text_lower then "promoted to"
  else if contains "appoints" text_lower || contains "appointed" text_lower
       then "appointed"
  else if contains "taps" text_lower || contains "tapped" text_lower
       then "tapped as"
  else if contains "names" text_lower || contains "named" text_lower
       then "named"
  else if contains "joins" text_lower || contains "hired" text_lower
          || contains "hires" text_lower
       then "joins as"
  else if contains "announces" text_lower || contains "appointment" text_lower
       then "announced as"
  else "named".

(* ================================================================= *)
(** ** Exceptions and dates *)

Inductive exn : Type := ValueError | TypeError | OverflowError.

Inductive result (A : Type) : Type :=
| Ok (a : A)
| Raise (e : exn).
Arguments Ok {A} a.
Arguments Raise {A} e.

Definition bind {A B} (c : result A) (k : A -> result B) : result B :=
  match c with
  | Ok a => k a
  | Raise e => Raise e
  end.

Notation "x <- c ;; k" := (bind c (fun x => k))
  (at level 61, c at next level, right associativity).

Open Scope Z_scope.

(** A [datetime]: the wall-clock fields as the number of microseconds since
    0001-01-01T00:00:00, and the UTC offset when the value is aware. *)
Record datetime : Type := DateTime {
  wall : Z;
  tzinfo : option Z
}.

Definition us_per_day : Z := 86400 * 1000000.

(** [datetime.max] is the last microsecond of 9999-12-31, whose ordinal
    is 3652059. *)
Definition max_wall : Z := 3652059 * us_per_day - 1.

(** [timedelta(days=n)]: the number of days is limited to nine digits. *)
Definition timedelta_days (n : Z) : result Z :=
  if Z.abs n <=? 999999999 then Ok n else Raise OverflowError.

(** [d - td] for a naive [d]: the result has to be a [datetime]. *)
Definition datetime_sub (d : Z) (days : Z) : result Z :=
  let r := d - days * us_per_day in
  if (0 <=? r) && (r <=? max_wall) then Ok r else Raise OverflowError.

(** [d.replace(tzinfo=None) if d.tzinfo else d]: the wall-clock fields. *)
Definition naive (d : datetime) : Z := wall d.

(** [d.date()] as the number of days since 0001-01-01. *)
Definition date_of (d : datetime) : Z := wall d / us_per_day.

Close Scope Z_scope.

(* ================================================================= *)
(** ** The orchestrator ([ArticleParser.parse_article]) *)

Record Candidate : Type := MkCandidate {
  person_name : text;
  new_title : option text;
  action : text;
  raw_text : text;
  source_url : option text;
  source_name : option text;
  announcement_date : option Z
}.

(** [re.sub(r'\s+', ' ', text)] *)
Fixpoint collapse_ws (in_run : bool) (s : text) : text :=
  match s with
  | [] => []
  | c :: s' =>
      if is_space c
      then if in_run then collapse_ws true s' else " "%char :: collapse_ws true s'
      else c :: collapse_ws false s'
  end.

Section Parser.

(** [BeautifulSoup(html, 'lxml').get_text(separator=' ')] *)
Variable soup_get_text : text -> text.

(** [dateutil.parser.parse] *)
Variable date_parser_parse : text -> result datetime.

(** The wall-clock fields of [datetime.now()], a naive value. *)
Variable now : Z.

Definition clean_html (html_content : text) : text :=
  strip (collapse_ws false (soup_get_text html_content)).

(** [parse_date] catches [ValueError] and [TypeError] only. *)
Definition parse_date (date_str : option text) : result (option datetime) :=
  match date_str with
  | None | Some [] => Ok None
  | Some s =>
      match date_parser_parse s with
      | Ok d => Ok (Some d)
      | Raise ValueError | Raise TypeError => Ok None
      | Raise e => Raise e
      end
  end.

(** Truth value of an [Optional[int]]. *)
Definition truthy (n : option Z) : bool :=
  match n with
  | Some k => negb (k =? 0)%Z
  | None => false
  end.

(** [datetime.now() - timedelta(days=max_age_days)] *)
Definition cutoff (max_age_days : Z) : result Z :=
  td <- timedelta_days max_age_days ;;
  datetime_sub now td.

(** The age filter: [Ok true] when the article is to be dropped. *)
Definition too_old (max_age_days : option Z) (announcement_date : option datetime)
  : result bool :=
  match max_age_days, announcement_date with
  | Some n, Some d =>
      if negb (n =? 0)%Z then
        c <- cutoff n ;;
        Ok (naive d <? c)%Z
      else Ok false
  | _, _ => Ok false
  end.

Definition parse_article (title content : text) (published_date : option text)
    (source_url source_name : option text) (max_age_days : option Z)
  : result (option Candidate) :=
  let clean_content := if nonempty content then clean_html content else [] in
  let combined_text := (title ++ sp ++ clean_content)%list in
  if negb (is_executive_move title clean_content) then Ok None
  else
    announcement_date <- parse_date published_date ;;
    old <- too_old max_age_days announcement_date ;;
    if old then Ok None
    else
      let person_name := extract_person_name combined_text in
      let new_title := extract_title combined_text in
      let action := extract_action combined_text in
      match person_name with
      | None | Some [] => Ok None
      | Some name =>
          Ok (Some (MkCandidate name new_title action
                      (firstn 2000 combined_text)
                      source_url source_name
                      (option_map date_of announcement_date)))
      end.

End Parser.

(* ================================================================= *)
(** ** The company matcher ([find_company_in_text]) *)

Record Company : Type := MkCompany {
  company_id : nat;
  company_name : text;
  aliases : list text
}.

Definition company_matches (text_lower : text) (c : Company) : bool :=
  contains (lower (company_name c)) text_lower
  || existsb (fun alias => contains (lower alias) text_lower) (aliases c).

Fixpoint first_company (text_lower : text) (companies : list Company)
  : option Company :=
  match companies with
  | [] => None
  | c :: rest =>
      if company_matches text_lower c then Some c
      else first_company text_lower rest
  end.

Definition find_company_in_text (t : text) (companies : list Company)
  : option Company :=
  first_company (lower t) companies.

(* ================================================================= *)
(** ** URL de-duplication ([news_fetcher.py]) *)

Record RawArticle : Type := MkArticle {
  a_title : text;
  a_content : text;
  a_link : text;
  a_published : text;
  a_source_name : text
}.

(** The loop that ends [NewsFetcher.fetch_google_news]. *)
Fixpoint unique_articles (seen_urls : list text) (all_articles : list RawArticle)
  : list RawArticle :=
  match all_articles with
  | [] => []
  | article :: more =>
      if negb (mem (a_link article) seen_urls)
      then article :: unique_articles (a_link article :: seen_urls) more
      else unique_articles seen_urls more
  end.

(** An announcement: the parsed article with the company that
    [process_articles] attaches to it. *)
Record Announcement : Type := MkAnnouncement {
  ann_parsed : Candidate;
  ann_company_id : nat;
  ann_company_name : text
}.

(** Truth value of [ann.get('source_url', '')]. *)
Definition has_url (ann : Announcement) : option text :=
  match source_url (ann_parsed ann) with
  | Some (ch :: u) => Some (ch :: u)
  | _ => None
  end.

(** The loop that ends [NewsAggregator.fetch_all]. *)
Fixpoint unique_announcements (seen_urls : list text) (all : list Announcement)
  : list Announcement :=
  match all with
  | [] => []
  | ann :: more =>
      match has_url ann with
      | Some url =>
          if negb (mem url seen_urls)
          then ann :: unique_announcements (url :: seen_urls) more
          else unique_announcements seen_urls more
      | None => ann :: unique_announcements seen_urls more
      end
  end.

(** *** One aggregation run ([NewsAggregator.fetch_all])

    What the feeds deliver is a parameter: the articles of the industry
    feeds, and for a company name the articles of the Google News queries
    (before their de-duplication), of NewsAPI, of the company newsroom and
    of the PR Newswire page. *)
Section Aggregator.

Variable soup_get_text : text -> text.
Variable date_parser_parse : text -> result datetime.
Variable now : Z.
Variable companies : list Company.
Variable industry_feeds : list RawArticle.
Variables google_feeds newsapi newsroom prnewswire : text -> list RawArticle.

Fixpoint process_articles (articles : list RawArticle)
    (target_company : option Company) (max_age_days : option Z)
  : result (list Announcement) :=
  match articles with
  | [] => Ok []
  | article :: more =>
      parsed <- parse_article soup_get_text date_parser_parse now
                  (a_title article) (a_content article)
                  (Some (a_published article)) (Some (a_link article))
                  (Some (a_source_name article)) max_age_days ;;
      others <- process_articles more target_company max_age_days ;;
      match parsed with
      | None => Ok others
      | Some c =>
          let combined_text := a_title article ++ sp ++ a_content article in
          let company :=
            match target_company with
            | Some tc =>
                match find_company_in_text combined_text [tc] with
                | Some _ => Some tc
                | None => None
                end
            | None => find_company_in_text combined_text companies
            end in
          match company with
          | Some co =>
              Ok (MkAnnouncement c (company_id co) (company_name co) :: others)
          | None => Ok others
          end
      end
  end.

Definition fetch_google_news (name : text) : list RawArticle :=
  unique_articles [] (google_feeds name).

Definition fetch_for_company (company : Company) : result (list Announcement) :=
  let name := company_name company in
  process_articles
    (fetch_google_news name ++ newsapi name ++ newsroom name ++ prnewswire name)
    (Some company) None.

Fixpoint fetch_companies (cs : list Company) : result (list Announcement) :=
  match cs with
  | [] => Ok []
  | company :: more =>
      company_announcements <- fetch_for_company company ;;
      others <- fetch_companies more ;;
      Ok (company_announcements ++ others)
  end.

Definition fetch_all : result (list Announcement) :=
  industry_announcements <- process_articles industry_feeds None None ;;
  company_announcements <- fetch_companies companies ;;
  Ok (unique_announcements [] (industry_announcements ++ company_announcements)).

End Aggregator.

(* ================================================================= *)
(** ** Alias lists ([scripts/import_companies.py]) *)

(** [s.split(sep)] for a one-character separator: the pieces between the
    separators, empty pieces included.  [cur] is the piece being read,
    reversed. *)
Fixpoint split_on (sep : ascii) (cur : text) (s : text) : list text :=
  match s with
  | [] => [rev cur]
  | c :: s' =>
      if Ascii.eqb c sep then rev cur :: split_on sep [] s'
      else split_on sep (c :: cur) s'
  end.

(** [parse_aliases]: the aliases of a company as the import reads them
    from the comma-separated column of the CSV file. *)
Definition parse_aliases (alias_string : option text) : list text :=
  match alias_string with
  | None | Some [] => []
  | Some s =>
      map strip (filter (fun a => nonempty (strip a)) (split_on "," [] s))
  end.

(* ================================================================= *)
(** ** Google News search URLs ([rss_sources.py]) *)

(** The double quote. *)
Definition dq : text := ["034"%char].

(** [template.format(field=value)] for a template whose replacement fields
    are plain [{field}] fields: the text is copied, [{{] and [}}] give one
    brace, and [{field}] gives [value], which is not scanned again.  The
    answer is [None] where Python does not return this substitution: a
    lone brace, a field left open, or a field that is not the plain
    [{field}].  [cur] is the field name being read, reversed. *)
Fixpoint format_scan (field value : text) (cur : option text) (template : text)
  : option text :=
  match template with
  | [] => match cur with None => Some [] | Some _ => None end
  | c :: rest =>
      match cur with
      | Some name =>
          if Ascii.eqb c "}" then
            if text_eqb (rev name) field
            then option_map (app value) (format_scan field value None rest)
            else None
          else format_scan field value (Some (c :: name)) rest
      | None =>
          if Ascii.eqb c "{" then
            match rest with
            | d :: rest' =>
                if Ascii.eqb d "{"
                then option_map (cons "{"%char) (format_scan field value None rest')
                else format_scan field value (Some []) rest
            | [] => None
            end
          else if Ascii.eqb c "}" then
            match rest with
            | d :: rest' =>
                if Ascii.eqb d "}"
                then option_map (cons "}"%char) (format_scan field value None rest')
                else None
            | [] => None
            end
          else option_map (cons c) (format_scan field value None rest)
      end
  end.

Definition str_format (field value template : text) : option text :=
  format_scan field value None template.

Definition GOOGLE_NEWS_RSS : text :=
  "https://news.google.com/rss/search?q={query}&hl=en-US&gl=US&ceid=US:en".

(** The template that reads ["{company}"] followed by [rest]. *)
Definition company_query (rest : string) : text :=
  dq ++ str "{company}" ++ dq ++ str rest.

Definition EXECUTIVE_MOVE_QUERIES : list text := map company_query [
  " appointed CEO"; " appointed president"; " names CEO"; " new CEO";
  " promoted"; " hires"; " executive"; " leadership"; " announces";
  " vice president"; " VP appointed"; " director appointed"; " names VP";
  " SVP"; " chief officer"
].

(** The characters [urllib.parse.quote] never escapes besides its [safe]
    argument: the letters, the digits and [_.-~]. *)
Definition always_safe (c : ascii) : bool :=
  is_upper c || is_lower c || is_digit c
  || existsb (Ascii.eqb c) (str "_.-~").

Definition hex_digit (n : nat) : ascii := nth n (str "0123456789ABCDEF") "0"%char.

(** [%XX] for a byte. *)
Definition percent (b : nat) : text :=
  ["%"%char; hex_digit (b / 16); hex_digit (b mod 16)].

(** The UTF-8 bytes of a character below U+0100. *)
Definition utf8 (c : ascii) : list nat :=
  if code c <? 128 then [code c] else [192 + code c / 64; 128 + code c mod 64].

(** [urllib.parse.quote(s)], with its default [safe='/']. *)
Definition quote_char (c : ascii) : text :=
  if always_safe c || Ascii.eqb c "/" then [c] else flat_map percent (utf8 c).

Definition quote (s : text) : text := flat_map quote_char s.

Definition default_query (company_name : text) : text :=
  dq ++ company_name ++ dq ++ str " AND (appointed OR promoted OR named OR joins)".

Definition build_google_news_url (company_name : text) (query_template : option text)
  : option text :=
  let query :=
    match query_template with
    | Some (c :: t) => str_format "company" company_name (c :: t)
    | _ => Some (default_query company_name)
    end in
  match query with
  | Some q => str_format "query" (quote q) GOOGLE_NEWS_RSS
  | None => None
  end.

(** The URLs [fetch_google_news] fetches for a company: one for each of
    [EXECUTIVE_MOVE_QUERIES[:6]]. *)
Definition google_news_urls (company_name : text) : list (option text) :=
  map (fun query_template => build_google_news_url company_name (Some query_template))
      (firstn 6 EXECUTIVE_MOVE_QUERIES).

(* ================================================================= *)
(** * Notions used to state the properties *)

(** The extractors are loops that return at the first element of a list
    for which one attempt succeeds. *)
Fixpoint first_match {A B : Type} (attempt : A -> option B) (l : list A)
  : option B :=
  match l with
  | [] => None
  | x :: l' =>
      match attempt x with
      | Some y => Some y
      | None => first_match attempt l'
      end
  end.

(** The table of section 4.5 of the specification, in its order. *)
Definition action_rules : list (list text * text) := [
  (map str ["promoted"], str "promoted to");
  (map str ["appoints"; "appointed"], str "appointed");
  (map str ["taps"; "tapped"], str "tapped as");
  (map str ["names"; "named"], str "named");
  (map str ["joins"; "hired"; "hires"], str "joins as");
  (map str ["announces"; "appointment"], str "announced as")
].

Definition action_labels : list text := map snd action_rules.

(** First rule with a substring in the lower-cased text, else "named". *)
Definition spec_action (t : text) : text :=
  let fire (r : list text * text) :=
    if existsb (fun w => contains w (lower t)) (fst r) then Some (snd r) else None in
  match first_match fire action_rules with
  | Some label => label
  | None => "named"
  end.

(** A pattern contributes no name: it has no match in the text, or the
    capture of its leftmost match fails the validation gate. *)
Definition rejected (p : regex) (t : text) : Prop :=
  search p t = None \/
  exists m, search p t = Some m /\ _is_valid_person_name (group1 t m) = false.

(** What one title of the vocabulary contributes to [extract_title]. *)
Definition title_attempt (t : text) (title : text) : option text :=
  option_map (widen_title t) (search (title_pattern title) t).

(** The three titles that open the vocabulary. *)
Definition leading_titles : list text :=
  map str ["CEO"; "Chief Executive Officer"; "President"].

(** The feed date is empty, missing, or refused by the date parser. *)
Definition date_unavailable (date_parser_parse : text -> result datetime)
    (published_date : option text) : Prop :=
  published_date = None \/
  published_date = Some [] \/
  exists s, published_date = Some s /\
            (date_parser_parse s = Raise ValueError \/
             date_parser_parse s = Raise TypeError).

(** The URLs of the announcements that have one. *)
Fixpoint urls_of (l : list Announcement) : list text :=
  match l with
  | [] => []
  | c :: l' =>
      match has_url c with
      | Some u => u :: urls_of l'
      | None => urls_of l'
      end
  end.

(** A headline on which the classifier and the extractors succeed. *)
Definition sample_title : text := "Acme appoints John Smith as CEO".

Definition sample_candidate (d : option Z) : Candidate :=
  MkCandidate "John Smith" (Some (str "CEO")) "appointed"
              "Acme appoints John Smith as CEO " None None d.

(** The clock at 2023-04-11T00:00 and a feed date ten days before it, with
    a UTC offset of one hour. *)
Definition sample_now : Z := 738620 * us_per_day.
Definition sample_date : datetime := DateTime (738610 * us_per_day) (Some 60%Z).
Definition sample_parser : text -> result datetime := fun _ => Ok sample_date.

(** A date parser that refuses its input. *)
Definition refusing_parser : text -> result datetime := fun _ => Raise ValueError.

(** A run over one tracked company and two identical articles without a
    link. *)
Definition acme : Company := MkCompany 1 "Acme" [].

Definition linkless : RawArticle :=
  MkArticle "Acme appoints John Smith as CEO" "" "" "" "Feed".

Definition linkless_announcement : Announcement :=
  MkAnnouncement
    (MkCandidate "John Smith" (Some (str "CEO")) "appointed"
       "Acme appoints John Smith as CEO " (Some (str "")) (Some (str "Feed")) None)
    1 "Acme".

Definition no_articles : text -> list RawArticle := fun _ => [].
Definition twice : text -> list RawArticle := fun _ => [linkless; linkless].

(** [matches r s w s']: [r] can read the characters [w] from state [s] and
    reach [s']. *)
Inductive matches : regex -> mstate -> text -> mstate -> Prop :=
| M_Eps s : matches Eps s [] s
| M_Cls p c t s :
    rest s = c :: t -> p c = true -> matches (Cls p) s [c] (advance c t s)
| M_Seq a b s1 w1 s2 w2 s3 :
    matches a s1 w1 s2 -> matches b s2 w2 s3 -> matches (Seq a b) s1 (w1 ++ w2) s3
| M_AltL a b s w s' : matches a s w s' -> matches (Alt a b) s w s'
| M_AltR a b s w s' : matches b s w s' -> matches (Alt a b) s w s'
| M_Star0 a s : matches (Star a) s [] s
| M_StarS a s1 w1 s2 w2 s3 :
    matches a s1 w1 s2 -> matches (Star a) s2 w2 s3 ->
    matches (Star a) s1 (w1 ++ w2) s3
| M_Grp a s w s' : matches a s w s' -> matches (Grp a) s w (set_grp (pos s) s')
| M_Bol s : pos s = 0 -> matches Bol s [] s
| M_WordB s : at_boundary s = true -> matches WordB s [] s.

(** Reading a literal, case-insensitively, from a state. *)
Fixpoint eat (l : text) (s : mstate) : option mstate :=
  match l with
  | [] => Some s
  | c :: l' =>
      match rest s with
      | d :: t =>
          if Ascii.eqb (to_lower c) (to_lower d) then eat l' (advance d t s)
          else None
      | [] => None
      end
  end.

(** The states [search_from] starts a match from: one per offset. *)
Definition state_at (p : nat) (pv : option ascii) (a b : text) : mstate :=
  MState (p + List.length a) (match rev a with c :: _ => Some c | [] => pv end) b None.

(** A state lies in the text [t] when its offset is that of its rest. *)
Definition inside (t : text) (s : mstate) : Prop :=
  exists a, t = a ++ rest s /\ pos s = List.length a.

(** Every group of [r] is the group [body]. *)
Fixpoint groups_are (body r : regex) : Prop :=
  match r with
  | Seq a b | Alt a b => groups_are body a /\ groups_are body b
  | Star a => groups_are body a
  | Grp a => a = body
  | _ => True
  end.

(** The span of group 1, when set, is a word read by [body]. *)
Definition captured (body : regex) (t : text) (s : mstate) : Prop :=
  match grp s with
  | Some (i, j) => exists sa w sb, matches body sa w sb /\ slice t i j = w
  | None => True
  end.

(** No whitespace at the start, or at the end, of a text. *)
Definition starts_clean (s : text) : bool :=
  match s with
  | c :: _ => negb (is_space c)
  | [] => true
  end.

Definition ends_clean (s : text) : bool := starts_clean (rev s).

(** No two whitespace characters in a row. *)
Fixpoint single_spaced (s : text) : bool :=
  match s with
  | c :: s' => negb (is_space c && negb (starts_clean s')) && single_spaced s'
  | [] => true
  end.

(** The characters of a text that are not whitespace. *)
Definition visible (s : text) : text := filter (fun c => negb (is_space c)) s.

(** [_is_valid_person_name] with the set of political surnames as a
    parameter. *)
Definition valid_name_with (political : list text) (name : text) : bool :=
  if negb (nonempty name) then false
  else if mem (lower name) FALSE_POSITIVE_NAMES then false
  else
    let ws := split name in
    if negb ((2 <=? List.length ws) && (List.length ws <=? 4)) then false
    else if mem (lower (word0 ws)) INVALID_FIRST_WORDS then false
    else if mem (lower (word_last ws)) INVALID_LAST_WORDS then false
    else if isupper (word0 ws) && (1 <? List.length (word0 ws)) then false
    else if (2 <=? List.length ws) && mem (lower (word1 ws)) publication_second_words
         then false
    else if mem (lower (word_last ws)) verbs_as_names then false
    else if (2 <=? List.length ws) && text_eqb (lower (word0 ws)) "president"
            && mem (lower (word1 ws)) political
         then false
    else if existsb (fun w => mem (lower w) non_name_middle_words
                              && (List.length w <=? 3)) (middle_words ws)
         then false
    else true.

(** The announcement [ann] carries the id and the name of [co]. *)
Definition attributed_to (co : Company) (ann : Announcement) : Prop :=
  ann_company_id ann = company_id co /\ ann_company_name ann = company_name co.

(** The text in which [process_articles] looks for a company: the title and
    the body as delivered, markup included. *)
Definition article_text (article : RawArticle) : text :=
  a_title article ++ sp ++ a_content article.

(** Every character class of [r] lies within [P]. *)
Fixpoint classes_within (P : ascii -> Prop) (r : regex) : Prop :=
  match r with
  | Cls p => forall c, p c = true -> P c
  | Seq a b | Alt a b => classes_within P a /\ classes_within P b
  | Star a | Grp a => classes_within P a
  | _ => True
  end.

(** The characters a captured name is made of. *)
Definition name_char (c : ascii) : Prop :=
  is_upper c = true \/ is_lower c = true \/ is_space c = true \/ c = "."%char.

(** The text [parse_article] works on: the title, a space and the cleaned
    body (nothing when the body is empty). *)
Definition cleaned_body (soup : text -> text) (content : text) : text :=
  if nonempty content then clean_html soup content else [].

Definition working_text (soup : text -> text) (title content : text) : text :=
  title ++ sp ++ cleaned_body soup content.

(** The characters of an escaped query: those [quote] leaves alone, and the
    percent sign of an escape. *)
Definition url_char (c : ascii) : bool :=
  always_safe c || Ascii.eqb c "/" || Ascii.eqb c "%".

Definition google_prefix : text := "https://news.google.com/rss/search?q=".
Definition google_suffix : text := "&hl=en-US&gl=US&ceid=US:en".


(* ================================================================= *)
(** * Properties *)

(** ** Text lemmas *)

Lemma lower_app (a b : text) : lower (a ++ b)%list = (lower a ++ lower b)%list.
Proof. apply map_app. Qed.

Lemma starts_with_app (n b : text) : starts_with n (n ++ b)%list = true.
Proof.
  induction n as [|c n IH]; simpl; [reflexivity|].
  now rewrite Ascii.eqb_refl, IH.
Qed.

Lemma contains_skip (n a h : text) :
  contains n h = true -> contains n (a ++ h)%list = true.
Proof.
  intros H. induction a as [|c a IH]; simpl; [exact H|].
  rewrite IH. apply orb_true_r.
Qed.

Lemma contains_prefix (n h : text) :
  starts_with n h = true -> contains n h = true.
Proof. intros H. destruct h; simpl; now rewrite H. Qed.

Lemma contains_here (n b : text) : contains n (n ++ b)%list = true.
Proof. apply contains_prefix, starts_with_app. Qed.

Lemma contains_infix (n a b : text) : contains n (a ++ n ++ b)%list = true.
Proof. apply contains_skip, contains_here. Qed.

Lemma text_eqb_eq (a b : text) : text_eqb a b = true <-> a = b.
Proof.
  unfold text_eqb. destruct (list_eq_dec ascii_dec a b); split; congruence.
Qed.

(** ** First-match search over an ordered list *)

Section FirstMatch.

Context {A B : Type} (attempt : A -> option B).

Lemma first_match_none (l : list A) :
  first_match attempt l = None <-> Forall (fun x => attempt x = None) l.
Proof.
  induction l as [|x l IH]; simpl.
  - split; auto.
  - destruct (attempt x) eqn:E.
    + split; [discriminate|]. intros H. inversion H; congruence.
    + rewrite IH. split; intros H.
      * constructor; assumption.
      * now inversion H.
Qed.

Lemma first_match_some (l : list A) (y : B) :
  first_match attempt l = Some y <->
  exists pre x post,
    l = (pre ++ x :: post)%list /\
    Forall (fun x' => attempt x' = None) pre /\
    attempt x = Some y.
Proof.
  induction l as [|x l IH]; simpl.
  - split; [discriminate|].
    intros (pre & x & post & E & _). destruct pre; discriminate.
  - destruct (attempt x) eqn:E.
    + split.
      * intros H. exists [], x, l. repeat split; auto. congruence.
      * intros (pre & x' & post & El & Hpre & Hx).
        destruct pre as [|p pre]; simpl in El; inversion El; subst.
        -- congruence.
        -- inversion Hpre; congruence.
    + rewrite IH. split.
      * intros (pre & x' & post & El & Hpre & Hx).
        exists (x :: pre), x', post. subst l. repeat split; auto.
      * intros (pre & x' & post & El & Hpre & Hx).
        destruct pre as [|p pre]; simpl in El; inversion El; subst.
        -- congruence.
        -- inversion Hpre; subst. exists pre, x', post. auto.
Qed.

End FirstMatch.

Lemma first_name_first_match (ps : list regex) (t : text) :
  first_name ps t = first_match (fun p => try_pattern p t) ps.
Proof. induction ps as [|p ps IH]; simpl; [reflexivity|]. now rewrite IH. Qed.

Lemma first_title_first_match (ps : list regex) (t : text) :
  first_title ps t =
  first_match (fun p => option_map (widen_title t) (search p t)) ps.
Proof.
  induction ps as [|p ps IH]; simpl; [reflexivity|].
  destruct (search p t); simpl; [reflexivity|exact IH].
Qed.

Lemma first_company_first_match (l : text) (cs : list Company) :
  first_company l cs =
  first_match (fun c => if company_matches l c then Some c else None) cs.
Proof.
  induction cs as [|c cs IH]; simpl; [reflexivity|].
  destruct (company_matches l c); [reflexivity|exact IH].
Qed.

Lemma mem_In (x : text) (l : list text) : mem x l = true <-> In x l.
Proof.
  unfold mem. rewrite existsb_exists. split.
  - intros (y & Hy & E). apply text_eqb_eq in E. now subst.
  - intros H. exists x. split; [exact H|]. now apply text_eqb_eq.
Qed.

Lemma mem_not_In (x : text) (l : list text) : mem x l = false <-> ~ In x l.
Proof.
  rewrite <- mem_In. destruct (mem x l); split; congruence.
Qed.

(* ================================================================= *)
(** ** The classifier *)

(** C1 (the code departs from the claim).  On the headline
    "Tyson Foods promotes John Smith to VP of Operations" with an empty body
    [is_executive_move] answers false: no entry of [EXECUTIVE_KEYWORDS] is a
    substring of the lower-cased text (the list has "promoted" but not
    "promotes"), so the keyword stage fails although the title stage alone
    would pass; with "promoted" in place of "promotes" the answer is true. *)
Theorem C1_promotes_headline_rejected :
  let title : text := "Tyson Foods promotes John Smith to VP of Operations" in
  let combined := lower (title ++ sp ++ [])%list in
  is_executive_move title "" = false /\
  Forall (fun kw => contains kw combined = false) EXECUTIVE_KEYWORDS /\
  In (str "promoted") EXECUTIVE_KEYWORDS /\
  ~ In (str "promotes") EXECUTIVE_KEYWORDS /\
  existsb (fun p => is_some (search p combined)) title_patterns = true /\
  is_executive_move "Tyson Foods promoted John Smith to VP of Operations" "" = true.
Proof.
  cbv zeta. split; [|split; [|split; [|split; [|split]]]].
  - vm_compute. reflexivity.
  - vm_compute. repeat constructor.
  - apply mem_In. vm_compute. reflexivity.
  - apply mem_not_In. vm_compute. reflexivity.
  - vm_compute. reflexivity.
  - vm_compute. reflexivity.
Qed.

(* ================================================================= *)
(** ** The action classifier *)


(** C7.  [extract_action] is the first-match lookup of the lower-cased text
    in the ordered table "promoted" -> "promoted to"; "appoints"/"appointed"
    -> "appointed"; "taps"/"tapped" -> "tapped as"; "names"/"named" ->
    "named"; "joins"/"hired"/"hires" -> "joins as";
    "announces"/"appointment" -> "announced as", with "named" as the
    default; it always produces one of these six labels; and a text with
    "was promoted" before a later "named" yields "promoted to". *)
Theorem C7_extract_action_table (t : text) :
  extract_action t = spec_action t /\
  In (extract_action t) action_labels /\
  (forall a b c : text,
     extract_action (a ++ str "was promoted" ++ b ++ str "named" ++ c)%list
     = str "promoted to").
Proof.
  split; [|split].
  - unfold extract_action, spec_action. cbv zeta.
    cbn [first_match action_rules existsb fst snd map].
    set (l := lower t).
    repeat match goal with
           | |- context [contains ?w l] => destruct (contains w l)
           end; reflexivity.
  - unfold extract_action. cbv zeta. set (l := lower t).
    repeat match goal with
           | |- context [contains ?w l] => destruct (contains w l)
           end; cbn [orb]; vm_compute; tauto.
  - intros a b c. unfold extract_action. cbv zeta.
    replace (a ++ str "was promoted" ++ b ++ str "named" ++ c)%list
      with ((a ++ str "was ") ++ str "promoted" ++ (b ++ str "named" ++ c))%list
      by (rewrite <- app_assoc; reflexivity).
    rewrite lower_app, (lower_app (str "promoted")).
    change (lower (str "promoted")) with (str "promoted").
    now rewrite contains_infix.
Qed.

(* ================================================================= *)
(** ** The company matcher *)

Lemma company_matches_spec (l : text) (c : Company) :
  company_matches l c = true <->
  contains (lower (company_name c)) l = true \/
  Exists (fun al => contains (lower al) l = true) (aliases c).
Proof.
  unfold company_matches. rewrite orb_true_iff, existsb_exists, Exists_exists.
  tauto.
Qed.

(** C8.  [find_company_in_text] lower-cases the text and returns the first
    company of the list, in the caller's order, whose lower-cased canonical
    name or one of whose lower-cased aliases is a substring of it, and none
    when no company matches; for the list [Tyson Foods; Cargill] and any
    text that mentions "Tyson Foods" the result is the Tyson Foods record. *)
Theorem C8_find_company_first_match (t : text) (companies : list Company) :
  (forall c,
     find_company_in_text t companies = Some c <->
     exists pre post,
       companies = (pre ++ c :: post)%list /\
       Forall (fun c' => company_matches (lower t) c' = false) pre /\
       company_matches (lower t) c = true) /\
  (find_company_in_text t companies = None <->
     Forall (fun c' => company_matches (lower t) c' = false) companies) /\
  (forall c,
     company_matches (lower t) c = true <->
     contains (lower (company_name c)) (lower t) = true \/
     Exists (fun al => contains (lower al) (lower t) = true) (aliases c)) /\
  (forall (a b : text) i al cargill,
     let tyson := MkCompany i "Tyson Foods" al in
     find_company_in_text (a ++ str "Tyson Foods" ++ b)%list [tyson; cargill]
     = Some tyson).
Proof.
  unfold find_company_in_text. split; [|split; [|split]].
  - intros c. rewrite first_company_first_match, first_match_some. split.
    + intros (pre & x & post & E & Hpre & Hx).
      destruct (company_matches (lower t) x) eqn:Ex; [|discriminate].
      inversion Hx; subst x. exists pre, post. repeat split; auto.
      eapply Forall_impl; [|exact Hpre]. intros c'; cbv beta.
      destruct (company_matches (lower t) c'); congruence.
    + intros (pre & post & E & Hpre & Hc).
      exists pre, c, post. repeat split; auto.
      * eapply Forall_impl; [|exact Hpre]. intros c' Hc'; cbv beta. now rewrite Hc'.
      * now rewrite Hc.
  - rewrite first_company_first_match, first_match_none. split; intros H.
    + eapply Forall_impl; [|exact H]. intros c'; cbv beta.
      destruct (company_matches (lower t) c'); congruence.
    + eapply Forall_impl; [|exact H]. intros c' Hc'; cbv beta. now rewrite Hc'.
  - intros c. apply company_matches_spec.
  - intros a b i al cargill. cbn [first_company].
    replace (company_matches _ (MkCompany i "Tyson Foods" al)) with true;
      [reflexivity|].
    symmetry. apply company_matches_spec. left.
    rewrite !lower_app. apply contains_infix.
Qed.

(* ================================================================= *)
(** ** The name validation gate *)

Lemma valid_name_shape (name : text) :
  _is_valid_person_name name = true ->
  2 <= List.length (split name) <= 4 /\
  ~ In (lower (word0 (split name))) INVALID_FIRST_WORDS /\
  ~ In (lower (word_last (split name))) INVALID_LAST_WORDS.
Proof.
  unfold _is_valid_person_name. cbv zeta.
  destruct (negb (nonempty name)); [discriminate|].
  destruct (mem (lower name) FALSE_POSITIVE_NAMES); [discriminate|].
  destruct (negb _) eqn:Ecount; [discriminate|].
  destruct (mem _ INVALID_FIRST_WORDS) eqn:Efirst; [discriminate|].
  destruct (mem _ INVALID_LAST_WORDS) eqn:Elast; [discriminate|].
  intros _.
  apply negb_false_iff, andb_true_iff in Ecount. destruct Ecount as [Hlo Hhi].
  apply Nat.leb_le in Hlo, Hhi.
  repeat split; try assumption; now apply mem_not_In.
Qed.

Lemma try_pattern_valid (p : regex) (t name : text) :
  try_pattern p t = Some name -> _is_valid_person_name name = true.
Proof.
  unfold try_pattern. destruct (search p t) as [m|]; [|discriminate].
  cbv zeta. destruct (_is_valid_person_name _) eqn:E; [|discriminate].
  intros H. inversion H; subst. exact E.
Qed.

Lemma extract_person_name_valid (t name : text) :
  extract_person_name t = Some name -> _is_valid_person_name name = true.
Proof.
  unfold extract_person_name. rewrite first_name_first_match, first_match_some.
  intros (pre & p & post & _ & _ & H). now apply try_pattern_valid in H.
Qed.

(** C4.  A name accepted by the validation gate, and so every name
    [extract_person_name] returns, has between 2 and 4 words, its
    lower-cased first word is not in the invalid-first-word set and its
    lower-cased last word is not in the invalid-last-word set. *)
Theorem C4_accepted_name_shape (name : text) :
  _is_valid_person_name name = true \/
  (exists t, extract_person_name t = Some name) ->
  2 <= List.length (split name) <= 4 /\
  ~ In (lower (word0 (split name))) INVALID_FIRST_WORDS /\
  ~ In (lower (word_last (split name))) INVALID_LAST_WORDS.
Proof.
  intros [H | [t H]]; [|apply extract_person_name_valid in H];
    now apply valid_name_shape.
Qed.

Lemma C4_accepted_name_shape_witness :
  2 <= List.length (split "John Smith") <= 4 /\
  ~ In (lower (word0 (split "John Smith"))) INVALID_FIRST_WORDS /\
  ~ In (lower (word_last (split "John Smith"))) INVALID_LAST_WORDS.
Proof.
  apply (C4_accepted_name_shape "John Smith").
  right.
  exists (str "Tyson Foods announces John Smith has been appointed Chief Financial Officer.").
  vm_compute. reflexivity.
Defined.

(* ================================================================= *)
(** ** URL de-duplication *)

(** [fetch_all]: an announcement without a URL is always kept. *)
Lemma unique_announcements_keeps_no_url (all : list Announcement) :
  forall seen,
    filter (fun c => negb (is_some (has_url c))) (unique_announcements seen all)
    = filter (fun c => negb (is_some (has_url c))) all.
Proof.
  induction all as [|c all IH]; intros seen; simpl; [reflexivity|].
  destruct (has_url c) as [u|] eqn:E; simpl.
  - destruct (mem u seen); simpl; rewrite ?E; simpl; apply IH.
  - rewrite E. simpl. now rewrite IH.
Qed.


Lemma unique_announcements_urls (all : list Announcement) :
  forall seen u,
    In u (urls_of (unique_announcements seen all)) <->
    In u (urls_of all) /\ ~ In u seen.
Proof.
  induction all as [|c all IH]; intros seen u; simpl; [tauto|].
  destruct (has_url c) as [v|] eqn:E.
  - destruct (mem v seen) eqn:M; simpl.
    + apply mem_In in M. rewrite IH. split.
      * intros [H1 H2]. auto.
      * intros [[H1|H1] H2]; [subst; contradiction|auto].
    + apply mem_not_In in M. rewrite E. simpl. rewrite IH. simpl.
      destruct (list_eq_dec ascii_dec v u) as [->|N]; [tauto|]. tauto.
  - simpl. rewrite E. apply IH.
Qed.

(** [fetch_all]: no URL is kept twice, and every URL of the input is kept. *)
Lemma unique_announcements_nodup (all : list Announcement) :
  forall seen, NoDup (urls_of (unique_announcements seen all)).
Proof.
  induction all as [|c all IH]; intros seen; simpl; [constructor|].
  destruct (has_url c) as [v|] eqn:E.
  - destruct (mem v seen) eqn:M; simpl; [apply IH|].
    rewrite E. constructor; [|apply IH].
    rewrite unique_announcements_urls. simpl. tauto.
  - simpl. rewrite E. apply IH.
Qed.

Lemma unique_articles_links (arts : list RawArticle) :
  forall seen u,
    In u (map a_link (unique_articles seen arts)) <->
    In u (map a_link arts) /\ ~ In u seen.
Proof.
  induction arts as [|a arts IH]; intros seen u; simpl; [tauto|].
  destruct (mem (a_link a) seen) eqn:M; simpl.
  - apply mem_In in M. rewrite IH. split.
    + intros [H1 H2]. auto.
    + intros [[H1|H1] H2]; [subst; contradiction|auto].
  - apply mem_not_In in M. rewrite IH. simpl.
    destruct (list_eq_dec ascii_dec (a_link a) u) as [<-|N]; tauto.
Qed.

Lemma unique_articles_nodup (arts : list RawArticle) :
  forall seen, NoDup (map a_link (unique_articles seen arts)).
Proof.
  induction arts as [|a arts IH]; intros seen; simpl; [constructor|].
  destruct (mem (a_link a) seen) eqn:M; simpl; [apply IH|].
  constructor; [|apply IH].
  rewrite unique_articles_links. simpl. tauto.
Qed.


(** C9 (the code departs from the claim).  The pass that ends
    [fetch_google_news] keeps every link once, the empty link included: of
    two articles whose link is empty only the first is retained, so a run
    in which Google News delivers two identical articles without a link
    outputs one announcement, where the same two articles delivered by
    NewsAPI give two.  The pass that ends [fetch_all] does what the claim
    says: it keeps each non-empty URL exactly once and every announcement
    without a URL. *)
Theorem C9_google_news_collapses_empty_links :
  (forall title content published source,
     let a := MkArticle title content "" published source in
     unique_articles [] [a; a] = [a]) /\
  (forall arts, NoDup (map a_link (unique_articles [] arts))) /\
  (forall soup parse now,
     fetch_all soup parse now [acme] [] twice no_articles no_articles no_articles
     = Ok [linkless_announcement] /\
     fetch_all soup parse now [acme] [] no_articles twice no_articles no_articles
     = Ok [linkless_announcement; linkless_announcement]) /\
  (forall all,
     NoDup (urls_of (unique_announcements [] all)) /\
     (forall u, In u (urls_of (unique_announcements [] all)) <-> In u (urls_of all)) /\
     filter (fun c => negb (is_some (has_url c))) (unique_announcements [] all)
     = filter (fun c => negb (is_some (has_url c))) all).
Proof.
  split; [|split; [|split]].
  - intros. reflexivity.
  - intros. apply unique_articles_nodup.
  - intros soup parse now. split; vm_compute; reflexivity.
  - intros all. split; [|split].
    + apply unique_announcements_nodup.
    + intros u. rewrite unique_announcements_urls. simpl. tauto.
    + apply unique_announcements_keeps_no_url.
Qed.

(* ================================================================= *)
(** ** The orchestrator *)

Section ParseArticle.

Variable soup_get_text : text -> text.
Variable date_parser_parse : text -> result datetime.
Variable now : Z.

Let parse := parse_article soup_get_text date_parser_parse now.


Lemma parse_date_unavailable (published_date : option text) :
  date_unavailable date_parser_parse published_date ->
  parse_date date_parser_parse published_date = Ok None.
Proof.
  intros [-> | [-> | (s & -> & H)]]; try reflexivity.
  destruct s; [reflexivity|]. simpl. now destruct H as [-> | ->].
Qed.

Lemma too_old_disabled (n : option Z) (d : option datetime) :
  truthy n = false \/ d = None -> too_old now n d = Ok false.
Proof.
  intros [H | ->].
  - destruct n as [k|]; [|reflexivity]. simpl in H. destruct d; [|reflexivity].
    simpl. now rewrite H.
  - now destruct n.
Qed.

(** The age filter is the only place where [max_age_days] is read. *)
Lemma parse_article_filter_disabled title content published_date url src n :
  truthy n = false \/ date_unavailable date_parser_parse published_date ->
  parse title content published_date url src n
  = parse title content published_date url src None.
Proof.
  intros H. unfold parse, parse_article. cbv zeta.
  destruct (negb (is_executive_move _ _)); [reflexivity|].
  destruct H as [H | H].
  - destruct (parse_date date_parser_parse published_date) as [d|e];
      cbn [bind]; [|reflexivity].
    rewrite (too_old_disabled n d) by auto.
    now rewrite (too_old_disabled None d) by auto.
  - rewrite (parse_date_unavailable _ H). cbn [bind].
    rewrite (too_old_disabled n None) by auto.
    now rewrite (too_old_disabled None None) by auto.
Qed.

Lemma parse_article_no_date title content published_date url src n c :
  date_unavailable date_parser_parse published_date ->
  parse title content published_date url src n = Ok (Some c) ->
  announcement_date c = None.
Proof.
  intros H. unfold parse, parse_article. cbv zeta.
  destruct (negb (is_executive_move _ _)); [discriminate|].
  rewrite (parse_date_unavailable _ H). cbn [bind].
  rewrite (too_old_disabled n None) by auto. cbn [bind].
  destruct (extract_person_name _) as [[|ch name]|]; try discriminate.
  intros E. inversion E. reflexivity.
Qed.


End ParseArticle.


(** Without an age limit the sample headline gives a Candidate, whatever
    the feed date. *)
Lemma sample_parses soup parse now published_date d :
  parse_date parse published_date = Ok d ->
  parse_article soup parse now sample_title "" published_date None None None
  = Ok (Some (sample_candidate (option_map date_of d))).
Proof.
  intros H. unfold parse_article. cbv zeta. cbn [nonempty str list_ascii_of_string].
  replace (is_executive_move sample_title []) with true
    by (vm_compute; reflexivity).
  cbn [negb]. rewrite H. cbn [bind too_old].
  replace (extract_person_name _) with (Some (str "John Smith"))
    by (vm_compute; reflexivity).
  replace (extract_title _) with (Some (str "CEO"))
    by (vm_compute; reflexivity).
  replace (extract_action _) with (str "appointed")
    by (vm_compute; reflexivity).
  reflexivity.
Qed.

(** C10.  The age filter runs only when [max_age_days] is truthy and the
    feed date was parsed: with [max_age_days = 0] the call behaves as with
    no limit; when the feed date is missing, empty or refused by the date
    parser the call behaves as with no limit whatever [max_age_days] is, and
    a Candidate it returns has no announcement date; for instance the
    sample headline with an empty feed date and [max_age_days = 7] gives a
    Candidate without date. *)
Theorem C10_age_filter_guard soup parse now title content published_date url src :
  parse_article soup parse now title content published_date url src (Some 0%Z)
  = parse_article soup parse now title content published_date url src None /\
  (date_unavailable parse published_date ->
   forall n,
     parse_article soup parse now title content published_date url src n
     = parse_article soup parse now title content published_date url src None /\
     forall c,
       parse_article soup parse now title content published_date url src n
       = Ok (Some c) ->
       announcement_date c = None) /\
  parse_article soup parse now sample_title "" (Some (str "")) None None (Some 7%Z)
  = Ok (Some (sample_candidate None)).
Proof.
  split; [|split].
  - apply parse_article_filter_disabled. now left.
  - intros H n. split.
    + apply parse_article_filter_disabled. now right.
    + intros c. now apply parse_article_no_date.
  - rewrite parse_article_filter_disabled by (right; right; left; reflexivity).
    apply (sample_parses soup parse now (Some (str "")) None). reflexivity.
Qed.

Lemma C10_age_filter_guard_witness :
  parse_article (fun s => s) refusing_parser sample_now sample_title ""
    (Some (str "next week")) None None (Some 7%Z)
  = parse_article (fun s => s) refusing_parser sample_now sample_title ""
      (Some (str "next week")) None None None.
Proof.
  destruct (C10_age_filter_guard (fun s => s) refusing_parser sample_now
              sample_title "" (Some (str "next week")) None None)
    as (_ & H & _).
  apply H. right. right. exists (str "next week").
  split; [reflexivity|left; reflexivity].
Defined.

(** C6, as amended.  When [max_age_days] is given and not zero, the feed
    date parses to [d], the cutoff [now - max_age_days] is a [datetime] and
    the wall-clock fields of [d] (its offset, if any, discarded) are before
    the cutoff, [parse_article] returns none. *)
Theorem C6_age_filter_drops_old soup parse now title content published_date
    url src (n : Z) (d : datetime) (c : Z) :
  n <> 0%Z ->
  parse_date parse published_date = Ok (Some d) ->
  cutoff now n = Ok c ->
  (naive d < c)%Z ->
  parse_article soup parse now title content published_date url src (Some n)
  = Ok None.
Proof.
  intros Hn Hd Hc Hlt. unfold parse_article. cbv zeta.
  destruct (negb (is_executive_move _ _)); [reflexivity|].
  rewrite Hd. cbn [bind too_old].
  apply Z.eqb_neq in Hn. rewrite Hn. cbn [negb]. rewrite Hc. cbn [bind].
  apply Z.ltb_lt in Hlt. now rewrite Hlt.
Qed.


Lemma C6_age_filter_drops_old_witness :
  parse_article (fun s => s) sample_parser sample_now sample_title ""
    (Some (str "Sat, 01 Apr 2023 00:00:00 +0100")) None None (Some 7%Z)
  = Ok None /\
  parse_article (fun s => s) sample_parser sample_now sample_title ""
    (Some (str "Sat, 01 Apr 2023 00:00:00 +0100")) None None None
  = Ok (Some (sample_candidate (Some 738610%Z))).
Proof.
  split.
  - apply (C6_age_filter_drops_old (fun s => s) sample_parser sample_now
             sample_title "" (Some (str "Sat, 01 Apr 2023 00:00:00 +0100"))
             None None 7 sample_date (738613 * us_per_day)).
    + discriminate.
    + reflexivity.
    + reflexivity.
    + reflexivity.
  - vm_compute. reflexivity.
Defined.

(** C6 as stated fails when the limit given is 0: the feed date is ten
    days before the cutoff [now - 0], and the Candidate is returned. *)
Lemma C6_zero_limit_counterexample :
  parse_date sample_parser (Some (str "Sat, 01 Apr 2023 00:00:00 +0100"))
  = Ok (Some sample_date) /\
  cutoff sample_now 0 = Ok sample_now /\
  (naive sample_date < sample_now)%Z /\
  parse_article (fun s => s) sample_parser sample_now sample_title ""
    (Some (str "Sat, 01 Apr 2023 00:00:00 +0100")) None None (Some 0%Z)
  = Ok (Some (sample_candidate (Some 738610%Z))).
Proof.
  repeat split; vm_compute; reflexivity.
Qed.

(** C5 (the code departs from the claim).  With [max_age_days = 4000000],
    more days than separate any clock value from 0001-01-01, and a feed date
    the date parser accepts, the subtraction that computes the cutoff raises
    [OverflowError], which [parse_article] does not catch. *)
Theorem C5_huge_max_age_raises soup (parse : text -> result datetime)
    (now : Z) (d : datetime) :
  (0 <= now <= max_wall)%Z ->
  parse (str "2020-01-01") = Ok d ->
  parse_article soup parse now sample_title "" (Some (str "2020-01-01"))
    None None (Some 4000000%Z)
  = Raise OverflowError.
Proof.
  intros Hnow Hd. unfold parse_article. cbv zeta.
  cbn [nonempty str list_ascii_of_string].
  replace (is_executive_move sample_title []) with true
    by (vm_compute; reflexivity).
  cbn [negb]. unfold parse_date.
  change (str "2020-01-01") with (list_ascii_of_string "2020-01-01") in Hd.
  cbn [list_ascii_of_string] in Hd. rewrite Hd. cbn [bind too_old].
  change (negb (4000000 =? 0)%Z) with true. cbv iota.
  unfold cutoff. change (timedelta_days 4000000) with (Ok 4000000%Z).
  cbn [bind]. unfold datetime_sub. cbv zeta.
  replace (0 <=? now - 4000000 * us_per_day)%Z with false; [reflexivity|].
  symmetry. apply Z.leb_gt. unfold max_wall, us_per_day in *. lia.
Qed.

Lemma C5_huge_max_age_raises_witness :
  parse_article (fun s => s) sample_parser sample_now sample_title ""
    (Some (str "2020-01-01")) None None (Some 4000000%Z)
  = Raise OverflowError.
Proof.
  apply (C5_huge_max_age_raises (fun s => s) sample_parser sample_now sample_date).
  - unfold sample_now, max_wall, us_per_day. lia.
  - reflexivity.
Defined.

(* ================================================================= *)
(** ** Whole-word search for a title *)

Lemma run_seqs_cons (a : regex) (l : list regex) k s :
  run (seqs (a :: l)) k s = run a (run (seqs l) k) s.
Proof. destruct l; reflexivity. Qed.


Lemma run_lit_ci (l : text) k s :
  run (lit_ci l) k s = match eat l s with Some s' => k s' | None => None end.
Proof.
  unfold lit_ci. revert k s. induction l as [|c l IH]; intros k s.
  - reflexivity.
  - cbn [map]. rewrite run_seqs_cons. cbn [chr_ci run eat].
    destruct (rest s) as [|d t]; [reflexivity|].
    destruct (Ascii.eqb _ _); [apply IH|reflexivity].
Qed.

Lemma eat_app (l1 l2 : text) s :
  eat (l1 ++ l2) s = match eat l1 s with Some s1 => eat l2 s1 | None => None end.
Proof.
  revert s. induction l1 as [|c l1 IH]; intros s; cbn [app eat]; [reflexivity|].
  destruct (rest s) as [|d t]; [reflexivity|].
  destruct (Ascii.eqb _ _); [apply IH|reflexivity].
Qed.

Lemma title_match_at (l : text) s :
  match_at (title_pattern l) s =
  if at_boundary s then
    match eat l s with
    | Some s' =>
        if at_boundary s' then Some (RMatch (pos s) (pos s') (grp s')) else None
    | None => None
    end
  else None.
Proof.
  unfold match_at, title_pattern. cbn [seqs run].
  destruct (at_boundary s); [|reflexivity].
  rewrite run_lit_ci. destruct (eat l s) as [s'|]; [|reflexivity].
  cbn [run]. now destruct (at_boundary s').
Qed.


Lemma state_at_cons p pv c a b :
  state_at (S p) (Some c) a b = state_at p pv (c :: a) b.
Proof.
  unfold state_at. f_equal.
  - simpl. lia.
  - simpl. destruct (rev a) as [|x r]; reflexivity.
Qed.

Lemma search_from_none r (t : text) :
  forall p pv a b,
    search_from r p pv t = None -> t = (a ++ b)%list ->
    match_at r (state_at p pv a b) = None.
Proof.
  induction t as [|c t IH]; intros p pv a b H E.
  - destruct a; [|discriminate]. simpl in E. subst b.
    simpl in H. unfold state_at. simpl. rewrite Nat.add_0_r.
    destruct (match_at r _); [discriminate|reflexivity].
  - cbn [search_from] in H.
    destruct (match_at r (MState p pv (c :: t) None)) eqn:M; [discriminate|].
    destruct a as [|c' a].
    + simpl in E. subst b. unfold state_at. simpl. now rewrite Nat.add_0_r.
    + inversion E; subst c' t. rewrite <- state_at_cons. now apply IH.
Qed.

Lemma search_from_some r (t : text) :
  forall p pv m,
    search_from r p pv t = Some m ->
    exists a b, t = (a ++ b)%list /\ match_at r (state_at p pv a b) = Some m.
Proof.
  induction t as [|c t IH]; intros p pv m H; cbn [search_from] in H.
  - exists [], []. split; [reflexivity|]. unfold state_at. simpl.
    rewrite Nat.add_0_r. destruct (match_at r _); [assumption|discriminate].
  - destruct (match_at r (MState p pv (c :: t) None)) eqn:M.
    + exists [], (c :: t). split; [reflexivity|]. unfold state_at. simpl.
      rewrite Nat.add_0_r. congruence.
    + apply IH in H. destruct H as (a & b & E & H).
      exists (c :: a), b. split; [now rewrite E|]. now rewrite <- state_at_cons.
Qed.

Lemma to_lower_word (c : ascii) : is_word (to_lower c) = is_word c.
Proof.
  destruct c as [[] [] [] [] [] [] [] []]; vm_compute; reflexivity.
Qed.

Lemma to_lower_space (d : ascii) : to_lower d = " "%char -> d = " "%char.
Proof.
  destruct d as [[] [] [] [] [] [] [] []]; vm_compute; intros H;
    solve [reflexivity | discriminate H].
Qed.

(** Reading [l ++ [" "]] from a search state leads to a search state, whose
    previous character is the space. *)
Lemma eat_state (l : text) :
  forall p pv a b s',
    eat (l ++ [" "%char]) (state_at p pv a b) = Some s' ->
    exists a', b = (a' ++ rest s')%list /\
               s' = state_at p pv (a ++ a') (rest s') /\
               prev s' = Some " "%char.
Proof.
  induction l as [|c l IH]; intros p pv a b s' H.
  - cbn [app eat] in H. cbn [state_at rest] in H.
    destruct b as [|d b]; [discriminate|].
    destruct (Ascii.eqb _ _) eqn:E; [|discriminate].
    inversion H; subst s'. clear H.
    apply Ascii.eqb_eq in E. symmetry in E. apply to_lower_space in E. subst d.
    exists [" "%char]. cbn [advance rest prev]. repeat split.
    unfold state_at, advance. cbn [pos prev rest grp].
    rewrite rev_app_distr, length_app. simpl. f_equal. lia.
  - cbn [app eat] in H. cbn [state_at rest] in H.
    destruct b as [|d b]; [discriminate|].
    destruct (Ascii.eqb _ _) eqn:E; [|discriminate].
    replace (advance d b (state_at p pv a (d :: b)))
      with (state_at p pv (a ++ [d]) b) in H.
    + apply IH in H. destruct H as (a' & Eb & Es & Hp).
      exists (d :: a'). rewrite <- app_assoc in Es. simpl in Es.
      repeat split; [now rewrite Eb|assumption|assumption].
    + unfold state_at, advance. cbn [pos prev rest grp].
      rewrite rev_app_distr, length_app. simpl. f_equal. lia.
Qed.

(** A title that matches as a whole word brings along every title it ends
    with after a space: where "Senior Vice President" matches, "President"
    matches too. *)
Lemma suffix_title_matches (pre : text) (c : ascii) (l t : text) :
  is_word c = true ->
  search (title_pattern (pre ++ " "%char :: c :: l)) t <> None ->
  search (title_pattern (c :: l)) t <> None.
Proof.
  intros Hc Hlong Hshort. unfold search in *.
  destruct (search_from _ 0 None t) as [m|] eqn:S in Hlong; [clear Hlong|congruence].
  apply search_from_some in S. destruct S as (a & b & E & M).
  rewrite title_match_at in M.
  destruct (at_boundary (state_at 0 None a b)); [|discriminate].
  replace (pre ++ " "%char :: c :: l)%list
    with ((pre ++ [" "%char]) ++ c :: l)%list in M
    by (rewrite <- app_assoc; reflexivity).
  rewrite eat_app in M.
  destruct (eat (pre ++ [" "%char]) _) as [s1|] eqn:E1; [|discriminate].
  destruct (eat (c :: l) s1) as [s2|] eqn:E2; [|discriminate].
  destruct (at_boundary s2) eqn:B2; [|discriminate].
  apply eat_state in E1. destruct E1 as (a' & Eb & Es1 & Hp).
  pose proof (search_from_none (title_pattern (c :: l)) t 0 None (a ++ a')
                (rest s1) Hshort) as N.
  rewrite <- Es1, title_match_at, E2, B2 in N.
  assert (B1 : at_boundary s1 = true).
  { unfold at_boundary. rewrite Hp. cbn [eat] in E2.
    destruct (rest s1) as [|d r]; [discriminate|].
    destruct (Ascii.eqb _ _) eqn:Ed in E2; [|discriminate].
    apply Ascii.eqb_eq in Ed. cbn [hd_error word_opt].
    rewrite <- (to_lower_word d), <- Ed, to_lower_word, Hc. reflexivity. }
  rewrite B1 in N.
  assert (Et : t = ((a ++ a') ++ rest s1)%list)
    by (rewrite <- app_assoc, <- Eb; exact E).
  specialize (N Et). discriminate.
Qed.

(* ================================================================= *)
(** ** The title extractor *)

Lemma first_match_map {A B C} (f : A -> B) (attempt : B -> option C) (l : list A) :
  first_match attempt (map f l) = first_match (fun x => attempt (f x)) l.
Proof.
  induction l as [|x l IH]; simpl; [reflexivity|]. now rewrite IH.
Qed.


Lemma extract_title_first_match (t : text) :
  extract_title t = first_match (title_attempt t) EXECUTIVE_TITLES.
Proof.
  unfold extract_title, title_patterns.
  now rewrite first_title_first_match, first_match_map.
Qed.

Lemma title_attempt_none (t title : text) :
  title_attempt t title = None <-> search (title_pattern title) t = None.
Proof.
  unfold title_attempt. destruct (search _ t); simpl; split; congruence.
Qed.


(** C2 fails as stated: "Senior Vice President" occurs in the text, and the
    extracted title is the bare "President". *)
Lemma C2_senior_vice_president_counterexample :
  contains "Senior Vice President" "Acme names Jane Doe Senior Vice President" = true /\
  extract_title "Acme names Jane Doe Senior Vice President" = Some (str "President").
Proof. split; vm_compute; reflexivity. Qed.

(** C2, as amended.  [extract_title] scans the title vocabulary in its
    declared order, which lists "President" (third) before "Senior Vice
    President", and answers from the first title that matches as a whole
    word: the phrase found by the connective widening around that match, or
    else the matched text.  So for every text in which "Senior Vice
    President" matches as a whole word, the title is taken from a match of
    "CEO", "Chief Executive Officer" or "President": it is "President" for
    "Acme names Jane Doe Senior Vice President" and, through the widening,
    "Senior Vice President" for "Jane Doe appointed as Senior Vice
    President". *)
Theorem C2_title_scan_order (t : text) :
  (exists post,
     EXECUTIVE_TITLES = leading_titles ++ post /\
     In (str "Senior Vice President") post) /\
  (forall r,
     extract_title t = Some r <->
     exists pre title post m,
       EXECUTIVE_TITLES = pre ++ title :: post /\
       Forall (fun title' => search (title_pattern title') t = None) pre /\
       search (title_pattern title) t = Some m /\
       r = widen_title t m) /\
  (extract_title t = None <->
   Forall (fun title => search (title_pattern title) t = None) EXECUTIVE_TITLES) /\
  (search (title_pattern "Senior Vice President") t <> None ->
   exists title m,
     In title leading_titles /\
     search (title_pattern title) t = Some m /\
     extract_title t = Some (widen_title t m)) /\
  extract_title "Acme names Jane Doe Senior Vice President"
  = Some (str "President") /\
  extract_title "Jane Doe appointed as Senior Vice President"
  = Some (str "Senior Vice President").
Proof.
  split; [|split; [|split; [|split; [|split]]]].
  - eexists. split; [reflexivity|]. apply mem_In. vm_compute. reflexivity.
  - intros r. rewrite extract_title_first_match, first_match_some. split.
    + intros (pre & title & post & E & Hpre & H).
      unfold title_attempt in H.
      destruct (search (title_pattern title) t) as [m|] eqn:S; [|discriminate].
      inversion H; subst r. exists pre, title, post, m. repeat split; auto.
      eapply Forall_impl; [|exact Hpre]. intros x. apply title_attempt_none.
    + intros (pre & title & post & m & E & Hpre & S & ->).
      exists pre, title, post. repeat split; auto.
      * eapply Forall_impl; [|exact Hpre]. intros x. apply title_attempt_none.
      * unfold title_attempt. now rewrite S.
  - rewrite extract_title_first_match, first_match_none.
    split; intros H; (eapply Forall_impl; [|exact H]); intros x;
      apply title_attempt_none.
  - intros H.
    change (str "Senior Vice President")
      with (str "Senior Vice" ++ " "%char :: "P"%char :: str "resident") in H.
    apply suffix_title_matches in H; [|reflexivity].
    change ("P"%char :: str "resident") with (str "President") in H.
    rewrite extract_title_first_match.
    change EXECUTIVE_TITLES
      with (str "CEO" :: str "Chief Executive Officer" :: str "President"
              :: skipn 3 EXECUTIVE_TITLES).
    cbn [first_match]. unfold title_attempt at 1 2 3.
    destruct (search (title_pattern "CEO") t) as [m|] eqn:S1.
    { exists (str "CEO"), m. repeat split; auto. simpl. auto. }
    destruct (search (title_pattern "Chief Executive Officer") t) as [m|] eqn:S2.
    { exists (str "Chief Executive Officer"), m. repeat split; auto. simpl. auto. }
    destruct (search (title_pattern "President") t) as [m|] eqn:S3; [|congruence].
    exists (str "President"), m. repeat split; auto. simpl. auto.
  - vm_compute. reflexivity.
  - vm_compute. reflexivity.
Qed.

Lemma C2_title_scan_order_witness :
  exists title m,
    In title leading_titles /\
    search (title_pattern title) "Jane Doe appointed as Senior Vice President"
    = Some m /\
    extract_title "Jane Doe appointed as Senior Vice President"
    = Some (widen_title "Jane Doe appointed as Senior Vice President" m).
Proof.
  apply (C2_title_scan_order "Jane Doe appointed as Senior Vice President").
  vm_compute. discriminate.
Defined.

(* ================================================================= *)
(** ** What the matcher accepts *)


#[local] Hint Constructors matches : core.

(** Whatever the matcher returns was reached by reading the pattern. *)
Lemma run_sound (r : regex) :
  forall k s x,
    run r k s = Some x -> exists w s', matches r s w s' /\ k s' = Some x.
Proof.
  induction r as [|p|a IHa b IHb|a IHa b IHb|a IHa|a IHa| |];
    intros k s x H; cbn [run] in H.
  - exists [], s. auto.
  - destruct (rest s) as [|c t] eqn:E; [discriminate|].
    destruct (p c) eqn:P; [|discriminate].
    exists [c], (advance c t s). auto.
  - apply IHa in H. destruct H as (w1 & s1 & M1 & H).
    apply IHb in H. destruct H as (w2 & s2 & M2 & H).
    exists (w1 ++ w2), s2. eauto.
  - destruct (run a k s) eqn:E.
    + inversion H; subst. apply IHa in E. destruct E as (w & s' & M & K).
      exists w, s'. auto.
    + apply IHb in H. destruct H as (w & s' & M & K). exists w, s'. auto.
  - revert H. generalize (List.length (rest s)). intros n. revert s.
    induction n as [|n IHn]; intros s H; [exists [], s; auto|].
    match type of H with
    | match ?e with _ => _ end = _ => destruct e eqn:E
    end; [|exists [], s; auto].
    inversion H; subst. apply IHa in E. destruct E as (w1 & s1 & M1 & K).
    destruct (pos s <? pos s1); [|discriminate].
    apply IHn in K. destruct K as (w2 & s2 & M2 & K).
    exists (w1 ++ w2), s2. eauto.
  - apply IHa in H. destruct H as (w & s' & M & K).
    exists w, (set_grp (pos s) s'). auto.
  - destruct (pos s =? 0) eqn:E; [|discriminate]. apply Nat.eqb_eq in E.
    exists [], s. auto.
  - destruct (at_boundary s) eqn:E; [|discriminate]. exists [], s. auto.
Qed.

Lemma matches_rest r s w s' :
  matches r s w s' ->
  rest s = w ++ rest s' /\ pos s' = pos s + List.length w.
Proof.
  induction 1 as [s|p c t s E P|a b s1 w1 s2 w2 s3 _ [E1 P1] _ [E2 P2]
                  |a b s w s' _ IH|a b s w s' _ IH|a s
                  |a s1 w1 s2 w2 s3 _ [E1 P1] _ [E2 P2]
                  |a s w s' _ [E P]|s|s]; cbn [advance set_grp rest pos app];
    rewrite ?length_app; cbn [List.length];
    try (split; [reflexivity|lia]); try assumption;
    try (split; [now rewrite E1, E2, app_assoc|lia]);
    try (split; [assumption|lia]).
Qed.


Lemma inside_matches t r s w s' :
  matches r s w s' -> inside t s -> inside t s'.
Proof.
  intros M (a & E & P). apply matches_rest in M. destruct M as [Er Ep].
  exists (a ++ w). split.
  - now rewrite <- app_assoc, <- Er.
  - rewrite length_app. lia.
Qed.


Lemma slice_inside (a w b : text) :
  slice (a ++ w ++ b) (List.length a) (List.length a + List.length w) = w.
Proof.
  unfold slice. rewrite skipn_app, skipn_all, Nat.sub_diag. simpl.
  replace (List.length a + List.length w - List.length a) with (List.length w + 0) by lia.
  now rewrite firstn_app_2, firstn_O, app_nil_r.
Qed.



Lemma captured_matches body t r s w s' :
  matches r s w s' -> groups_are body r ->
  inside t s -> captured body t s -> captured body t s'.
Proof.
  induction 1 as [s|p c u s E P|a b s1 w1 s2 w2 s3 M1 IH1 M2 IH2
                  |a b s w s' M IH|a b s w s' M IH|a s
                  |a s1 w1 s2 w2 s3 M1 IH1 M2 IH2
                  |a s w s' M IH|s|s]; cbn [groups_are]; intros G I C;
    try assumption.
  - destruct G as [Ga Gb]. apply IH2; auto. eapply inside_matches; eauto.
  - apply IH; tauto.
  - apply IH; tauto.
  - apply IH2; auto. eapply inside_matches; eauto.
  - subst a. unfold captured. cbn [set_grp grp].
    exists s, w, s'. split; [assumption|].
    destruct I as (pre & Et & Ep). apply matches_rest in M.
    destruct M as [Er Epos]. rewrite Epos, Ep, Et, Er. apply slice_inside.
Qed.

(** The group of a match found by [search], when set, is a word of [body]. *)
Lemma search_group body (r : regex) (t : text) (m : rmatch) :
  groups_are body r -> search r t = Some m ->
  group1 t m = [] \/ exists sa sb, matches body sa (group1 t m) sb.
Proof.
  intros G S. apply search_from_some in S. destruct S as (a & b & E & M).
  unfold match_at in M. destruct (run r Some _) as [sf|] eqn:R; [|discriminate].
  inversion M; subst m. clear M.
  apply run_sound in R. destruct R as (w & s' & M & K). inversion K; subst s'.
  assert (C : captured body t sf).
  { eapply captured_matches; eauto.
    - exists a. split; [exact E|reflexivity].
    - exact I. }
  unfold captured in C. unfold group1. cbn [m_grp].
  destruct (grp sf) as [[i j]|]; [|now left].
  destruct C as (sa & w' & sb & Mb & Es). right. exists sa, sb. now rewrite Es.
Qed.

(** *** The shape of a captured name *)

Lemma matches_seq_inv a b s w s' :
  matches (Seq a b) s w s' ->
  exists w1 s1 w2, matches a s w1 s1 /\ matches b s1 w2 s' /\ w = w1 ++ w2.
Proof. inversion 1; subst. eauto 6. Qed.

Lemma matches_opt_inv a s w s' :
  matches (Opt a) s w s' -> matches a s w s' \/ w = [].
Proof.
  unfold Opt. inversion 1 as [| | |? ? ? ? ? M|? ? ? ? ? M| | | | |]; subst;
    [now left|right]. now inversion M.
Qed.

Lemma matches_cls_inv p s w s' :
  matches (Cls p) s w s' -> exists c, w = [c] /\ p c = true.
Proof. inversion 1; subst. eauto. Qed.

Lemma matches_star_cls p s w s' :
  matches (Star (Cls p)) s w s' -> Forall (fun c => p c = true) w.
Proof.
  remember (Star (Cls p)) as r eqn:Er. induction 1; try discriminate.
  - constructor.
  - inversion Er; subst a. apply matches_cls_inv in H.
    destruct H as (c & -> & P). constructor; auto.
Qed.

(** A word of [Plus (Cls p)] ends with a character of the class. *)
Lemma matches_plus_cls_last p s w s' :
  matches (Plus (Cls p)) s w s' -> exists w' d, w = w' ++ [d] /\ p d = true.
Proof.
  unfold Plus. intros M. apply matches_seq_inv in M.
  destruct M as (w1 & s1 & w2 & M1 & M2 & ->).
  apply matches_cls_inv in M1. destruct M1 as (c & -> & Pc).
  apply matches_star_cls in M2.
  destruct (exists_last (l := [c] ++ w2)) as (w' & d & E); [discriminate|].
  exists w', d. split; [exact E|].
  assert (F : Forall (fun c => p c = true) ([c] ++ w2)) by (constructor; auto).
  rewrite E in F. apply Forall_app in F. destruct F as [_ F]. now inversion F.
Qed.

Lemma name_body_word sa w sb :
  matches name_body sa w sb ->
  exists c w' d, w = c :: w' ++ [d] /\ is_upper c = true /\ is_lower d = true.
Proof.
  unfold name_body. cbn [seqs]. intros M.
  apply matches_seq_inv in M. destruct M as (w1 & s1 & v1 & M1 & M & ->).
  apply matches_cls_inv in M1. destruct M1 as (c & -> & Hc).
  apply matches_seq_inv in M. destruct M as (w2 & s2 & v2 & _ & M & ->).
  apply matches_seq_inv in M. destruct M as (w3 & s3 & v3 & _ & M & ->).
  apply matches_seq_inv in M. destruct M as (w4 & s4 & v4 & _ & M & ->).
  apply matches_seq_inv in M. destruct M as (w5 & s5 & v5 & _ & M & ->).
  apply matches_seq_inv in M. destruct M as (w6 & s6 & v6 & M6 & M & ->).
  apply matches_plus_cls_last in M6. destruct M6 as (u & d & -> & Hd).
  apply matches_opt_inv in M. destruct M as [M | ->].
  - apply matches_seq_inv in M. destruct M as (w7 & s7 & v7 & _ & M & ->).
    apply matches_seq_inv in M. destruct M as (w8 & s8 & v8 & _ & M & ->).
    apply matches_plus_cls_last in M. destruct M as (u' & d' & -> & Hd').
    exists c, (w2 ++ w3 ++ w4 ++ w5 ++ (u ++ [d]) ++ w7 ++ w8 ++ u'), d'.
    repeat split; auto. simpl. f_equal.
    now rewrite <- !app_assoc.
  - exists c, (w2 ++ w3 ++ w4 ++ w5 ++ u), d.
    repeat split; auto. simpl. f_equal.
    now rewrite app_nil_r, <- !app_assoc.
Qed.

Lemma upper_not_space c : is_upper c = true -> is_space c = false.
Proof.
  destruct c as [[] [] [] [] [] [] [] []]; vm_compute; congruence.
Qed.

Lemma lower_not_space c : is_lower c = true -> is_space c = false.
Proof.
  destruct c as [[] [] [] [] [] [] [] []]; vm_compute; congruence.
Qed.

Lemma strip_fixed c w d :
  is_space c = false -> is_space d = false ->
  strip (c :: w ++ [d]) = c :: w ++ [d].
Proof.
  intros Hc Hd. unfold strip, rstrip. cbn [lstrip]. rewrite Hc.
  assert (E : rev (c :: w ++ [d]) = d :: rev (c :: w)).
  { change (c :: w ++ [d]) with ((c :: w) ++ [d]).
    now rewrite rev_app_distr. }
  rewrite E. cbn [lstrip]. rewrite Hd, <- E. apply rev_involutive.
Qed.

Lemma name_patterns_groups : Forall (groups_are name_body) name_patterns.
Proof.
  unfold name_patterns, name_group.
  repeat (apply Forall_cons; [cbn; tauto|]). apply Forall_nil.
Qed.

(** The [.strip()] of [extract_person_name] changes no capture. *)
Lemma name_capture_stripped (p : regex) (t : text) (m : rmatch) :
  In p name_patterns -> search p t = Some m ->
  strip (group1 t m) = group1 t m.
Proof.
  intros Hp S.
  pose proof name_patterns_groups as G. rewrite Forall_forall in G.
  destruct (search_group name_body p t m (G p Hp) S) as [-> | (sa & sb & M)].
  - reflexivity.
  - apply name_body_word in M. destruct M as (c & w & d & -> & Hc & Hd).
    apply strip_fixed; [now apply upper_not_space|now apply lower_not_space].
Qed.

(* ================================================================= *)
(** ** The name extractor *)


Lemma try_pattern_rejected (p : regex) (t : text) :
  In p name_patterns -> try_pattern p t = None <-> rejected p t.
Proof.
  intros Hp. unfold try_pattern, rejected.
  destruct (search p t) as [m|] eqn:S; [|tauto].
  cbv zeta. rewrite (name_capture_stripped p t m Hp S).
  destruct (_is_valid_person_name (group1 t m)) eqn:V; split.
  - discriminate.
  - intros [H | (m' & H & V')]; [discriminate|]. inversion H; subst. congruence.
  - intros _. right. eauto.
  - reflexivity.
Qed.

Lemma try_pattern_accepts (p : regex) (t name : text) :
  In p name_patterns ->
  try_pattern p t = Some name <->
  exists m, search p t = Some m /\ name = group1 t m /\
            _is_valid_person_name name = true.
Proof.
  intros Hp. unfold try_pattern.
  destruct (search p t) as [m|] eqn:S.
  - cbv zeta. rewrite (name_capture_stripped p t m Hp S).
    destruct (_is_valid_person_name (group1 t m)) eqn:V; split.
    + intros H. inversion H; subst. eauto.
    + intros (m' & H & -> & _). now inversion H.
    + discriminate.
    + intros (m' & H & -> & V'). inversion H; subst. congruence.
  - split; [discriminate|]. intros (m & H & _). discriminate.
Qed.

Lemma Forall_rejected (l : list regex) (t : text) :
  incl l name_patterns ->
  Forall (fun q => try_pattern q t = None) l <-> Forall (fun q => rejected q t) l.
Proof.
  intros Hl. rewrite !Forall_forall.
  split; intros H q Hq; apply (try_pattern_rejected q t (Hl q Hq)); auto.
Qed.

(** C3.  [extract_person_name] tries its patterns in their declared order:
    it returns [name] exactly when [name] is the capture of the leftmost
    match of some pattern, that capture passes the validation gate, and
    every pattern declared before it was rejected (no match, or a capture
    that fails the gate); the patterns declared after it play no part.  It
    returns none exactly when every pattern is rejected. *)
Theorem C3_first_valid_capture (t : text) :
  (forall name,
     extract_person_name t = Some name <->
     exists pre p post m,
       name_patterns = pre ++ p :: post /\
       Forall (fun q => rejected q t) pre /\
       search p t = Some m /\
       name = group1 t m /\
       _is_valid_person_name name = true) /\
  (extract_person_name t = None <->
   Forall (fun q => rejected q t) name_patterns).
Proof.
  unfold extract_person_name. rewrite first_name_first_match. split.
  - intros name. rewrite first_match_some. split.
    + intros (pre & p & post & E & Hpre & Hp).
      assert (Ip : In p name_patterns) by (rewrite E; apply in_elt).
      assert (Ipre : incl pre name_patterns)
        by (rewrite E; intros q Hq; apply in_or_app; now left).
      apply try_pattern_accepts in Hp; [|exact Ip].
      destruct Hp as (m & S & En & V).
      exists pre, p, post, m. repeat split; auto.
      now apply Forall_rejected.
    + intros (pre & p & post & m & E & Hpre & S & En & V).
      assert (Ip : In p name_patterns) by (rewrite E; apply in_elt).
      assert (Ipre : incl pre name_patterns)
        by (rewrite E; intros q Hq; apply in_or_app; now left).
      exists pre, p, post. repeat split; auto.
      * now apply Forall_rejected.
      * apply try_pattern_accepts; eauto.
  - rewrite first_match_none. apply Forall_rejected, incl_refl.
Qed.

(* ================================================================= *)
(** ** Worked examples of section 8 of the specification *)

Example classifier_rejects_earnings_report :
  is_executive_move "Tyson Foods reports record quarterly earnings" "" = false.
Proof. vm_compute. reflexivity. Qed.

Example extractor_finds_announced_name :
  extract_person_name
    "Tyson Foods announces John Smith has been appointed Chief Financial Officer."
  = Some (str "John Smith").
Proof. vm_compute. reflexivity. Qed.

Example gate_rejects_publication_name :
  _is_valid_person_name "Supermarket News" = false.
Proof. vm_compute. reflexivity. Qed.

Example gate_rejects_new_ceo : _is_valid_person_name "New CEO" = false.
Proof. vm_compute. reflexivity. Qed.

Example action_priority :
  extract_action "He was promoted and later named to the board" = str "promoted to".
Proof. vm_compute. reflexivity. Qed.

Example company_first_match :
  find_company_in_text "John Smith joins Tyson Foods as VP"
    [MkCompany 1 "Tyson Foods" []; MkCompany 2 "Cargill" []]
  = Some (MkCompany 1 "Tyson Foods" []).
Proof. vm_compute. reflexivity. Qed.

(* ================================================================= *)
(** * Further properties *)

(** ** Stripping and whitespace *)

Lemma lstrip_split (s : text) :
  exists ws, s = ws ++ lstrip s /\ forallb is_space ws = true.
Proof.
  induction s as [|c s (ws & E & H)]; [exists []; auto|].
  cbn [lstrip]. destruct (is_space c) eqn:Hc.
  - exists (c :: ws). split; [simpl; now rewrite <- E|simpl; now rewrite Hc].
  - exists []. auto.
Qed.

Lemma lstrip_starts_clean (s : text) : starts_clean (lstrip s) = true.
Proof.
  induction s as [|c s IH]; [reflexivity|].
  cbn [lstrip]. destruct (is_space c) eqn:Hc; [exact IH|].
  simpl. now rewrite Hc.
Qed.

Lemma lstrip_clean (s : text) : starts_clean s = true -> lstrip s = s.
Proof.
  destruct s as [|c s]; [reflexivity|]. simpl.
  now destruct (is_space c).
Qed.

Lemma rstrip_split (s : text) :
  exists ws, s = rstrip s ++ ws /\ forallb is_space ws = true.
Proof.
  unfold rstrip. destruct (lstrip_split (rev s)) as (ws & E & H).
  exists (rev ws). split.
  - rewrite <- rev_app_distr, <- E. symmetry. apply rev_involutive.
  - rewrite forallb_forall in *. intros c Hc. apply H. now apply in_rev.
Qed.

Lemma rstrip_ends_clean (s : text) : ends_clean (rstrip s) = true.
Proof.
  unfold ends_clean, rstrip. rewrite rev_involutive. apply lstrip_starts_clean.
Qed.

Lemma rstrip_clean (s : text) : ends_clean s = true -> rstrip s = s.
Proof.
  unfold ends_clean, rstrip. intros H. rewrite lstrip_clean by assumption.
  apply rev_involutive.
Qed.

Lemma starts_clean_prefix (a b : text) :
  starts_clean (a ++ b) = true -> starts_clean a = true.
Proof. destruct a; [reflexivity|exact (fun H => H)]. Qed.

Lemma strip_split (s : text) :
  exists ws1 ws2,
    s = ws1 ++ strip s ++ ws2 /\
    forallb is_space ws1 = true /\ forallb is_space ws2 = true.
Proof.
  unfold strip. destruct (lstrip_split s) as (ws1 & E1 & H1).
  destruct (rstrip_split (lstrip s)) as (ws2 & E2 & H2).
  exists ws1, ws2. repeat split; auto. now rewrite <- E2.
Qed.

Lemma strip_trimmed (s : text) :
  starts_clean (strip s) = true /\ ends_clean (strip s) = true.
Proof.
  unfold strip. split; [|apply rstrip_ends_clean].
  destruct (rstrip_split (lstrip s)) as (ws & E & _).
  apply (starts_clean_prefix _ ws). rewrite <- E. apply lstrip_starts_clean.
Qed.

Lemma strip_clean (s : text) :
  starts_clean s = true -> ends_clean s = true -> strip s = s.
Proof.
  intros H1 H2. unfold strip. rewrite lstrip_clean by assumption.
  now apply rstrip_clean.
Qed.

Lemma strip_idempotent (s : text) : strip (strip s) = strip s.
Proof. apply strip_clean; apply strip_trimmed. Qed.

Lemma visible_spaces (ws : text) : forallb is_space ws = true -> visible ws = [].
Proof.
  induction ws as [|c ws IH]; [reflexivity|]. simpl.
  intros H. apply andb_true_iff in H. destruct H as [Hc H].
  rewrite Hc. simpl. now apply IH.
Qed.

Lemma visible_strip (s : text) : visible (strip s) = visible s.
Proof.
  destruct (strip_split s) as (ws1 & ws2 & E & H1 & H2).
  rewrite E at 2. unfold visible. rewrite !filter_app.
  fold (visible ws1) (visible ws2) (visible (strip s)).
  now rewrite (visible_spaces _ H1), (visible_spaces _ H2), app_nil_r.
Qed.

Lemma single_spaced_app (a b : text) :
  single_spaced (a ++ b) = true ->
  single_spaced a = true /\ single_spaced b = true.
Proof.
  induction a as [|c a IH]; [auto|].
  cbn [app single_spaced]. intros H. apply andb_true_iff in H.
  destruct H as [H1 H2]. apply IH in H2. destruct H2 as [Ha Hb].
  split; [|exact Hb]. rewrite Ha, andb_true_r.
  destruct a as [|d a]; [|exact H1].
  simpl. now rewrite andb_false_r.
Qed.

Lemma collapse_ws_visible (s : text) :
  forall b, visible (collapse_ws b s) = visible s.
Proof.
  induction s as [|c s IH]; intros b; [reflexivity|].
  cbn [collapse_ws]. destruct (is_space c) eqn:Hc.
  - destruct b; simpl; rewrite Hc; simpl; apply IH.
  - simpl. rewrite Hc. simpl. now rewrite IH.
Qed.

Lemma collapse_ws_spaces (s : text) :
  forall b, Forall (fun c => is_space c = true -> c = " "%char) (collapse_ws b s).
Proof.
  induction s as [|c s IH]; intros b; [constructor|].
  cbn [collapse_ws]. destruct (is_space c) eqn:Hc.
  - destruct b; [apply IH|]. constructor; [reflexivity|apply IH].
  - constructor; [congruence|apply IH].
Qed.

Lemma collapse_ws_single (s : text) :
  (starts_clean (collapse_ws true s) = true) /\
  forall b, single_spaced (collapse_ws b s) = true.
Proof.
  induction s as [|c s [IH1 IH2]]; [split; reflexivity|].
  cbn [collapse_ws]. destruct (is_space c) eqn:Hc.
  - split; [exact IH1|]. intros [|]; [apply IH2|].
    cbn [single_spaced]. now rewrite IH1, IH2, andb_false_r.
  - split; [simpl; now rewrite Hc|]. intros b.
    cbn [single_spaced]. now rewrite Hc, IH2.
Qed.

Lemma Forall_infix {A} (P : A -> Prop) (a b c : list A) :
  Forall P (a ++ b ++ c) -> Forall P b.
Proof.
  intros H. apply Forall_app in H. destruct H as [_ H].
  apply Forall_app in H. tauto.
Qed.

(** X1.  Whatever the markup parser extracts, the text [clean_html] returns
    has no whitespace at either end, has a plain space for every
    whitespace character, never has two of them in a row, and has the
    non-whitespace characters of the extracted text, unchanged and in
    their order. *)
Theorem clean_html_normal_form (soup : text -> text) (html : text) :
  let r := clean_html soup html in
  starts_clean r = true /\ ends_clean r = true /\
  Forall (fun c => is_space c = true -> c = " "%char) r /\
  single_spaced r = true /\
  visible r = visible (soup html).
Proof.
  cbv zeta. unfold clean_html.
  set (w := collapse_ws false (soup html)).
  destruct (strip_split w) as (ws1 & ws2 & E & _ & _).
  split; [apply strip_trimmed|]. split; [apply strip_trimmed|].
  split; [|split].
  - apply (Forall_infix _ ws1 _ ws2). rewrite <- E. apply collapse_ws_spaces.
  - pose proof (proj2 (collapse_ws_single (soup html)) false) as H.
    fold w in H. rewrite E in H.
    apply single_spaced_app in H. destruct H as [_ H].
    apply single_spaced_app in H. tauto.
  - rewrite visible_strip. apply collapse_ws_visible.
Qed.

(* ================================================================= *)
(** ** Letter case *)


(* ================================================================= *)
(** ** Companies and their aliases *)

Lemma contains_nil (h : text) : contains [] h = true.
Proof. destruct h; reflexivity. Qed.

(** X2.  A company whose name is empty, or one of whose aliases is, is
    matched by every text: the matcher then never reaches a company listed
    after it. *)
Theorem empty_name_matches_everything (t : text) (before after : list Company)
    (c : Company) :
  company_name c = [] \/ In [] (aliases c) ->
  exists c',
    find_company_in_text t (before ++ c :: after) = Some c' /\
    In c' (before ++ [c]).
Proof.
  intros H. unfold find_company_in_text.
  assert (M : company_matches (lower t) c = true).
  { apply company_matches_spec. destruct H as [H | H].
    - left. rewrite H. apply contains_nil.
    - right. apply Exists_exists. exists []. split; [exact H|apply contains_nil]. }
  induction before as [|b before IH]; cbn [app first_company].
  - rewrite M. exists c. split; [reflexivity|now left].
  - destruct (company_matches (lower t) b).
    + exists b. split; [reflexivity|now left].
    + destruct IH as (c' & E & I). exists c'. split; [exact E|now right].
Qed.

Lemma empty_name_matches_everything_witness :
  exists c',
    find_company_in_text "Cargill names Jane Doe CEO"
      ([MkCompany 1 "Tyson Foods" []] ++ MkCompany 2 "Smithfield" [str ""]
         :: [MkCompany 3 "Cargill" []])
    = Some c' /\
    In c' ([MkCompany 1 "Tyson Foods" []] ++ [MkCompany 2 "Smithfield" [str ""]]).
Proof.
  apply (empty_name_matches_everything "Cargill names Jane Doe CEO"
           [MkCompany 1 "Tyson Foods" []] [MkCompany 3 "Cargill" []]
           (MkCompany 2 "Smithfield" [str ""])).
  right. left. reflexivity.
Defined.

Lemma split_on_no_sep (sep : ascii) (s : text) :
  forall cur, ~ In sep cur -> Forall (fun p => ~ In sep p) (split_on sep cur s).
Proof.
  induction s as [|c s IH]; intros cur H; cbn [split_on].
  - constructor; [|constructor]. intros I. apply H. now apply in_rev.
  - destruct (Ascii.eqb c sep) eqn:E.
    + constructor; [|apply IH; auto]. intros I. apply H. now apply in_rev.
    + apply IH. intros [I | I]; [|auto].
      subst. now rewrite Ascii.eqb_refl in E.
Qed.

Lemma strip_incl (s : text) (c : ascii) : In c (strip s) -> In c s.
Proof.
  destruct (strip_split s) as (ws1 & ws2 & E & _). intros H.
  rewrite E. apply in_or_app. right. apply in_or_app. now left.
Qed.

(** X3.  No alias that [parse_aliases] reads from the CSV column is empty,
    starts or ends with whitespace, or contains a comma; so no company
    imported through it is matched by way of an empty alias. *)
Theorem parse_aliases_clean (alias_string : option text) :
  Forall (fun a => a <> [] /\ strip a = a /\ ~ In ","%char a)
         (parse_aliases alias_string) /\
  forall (t : text) i name,
    company_matches (lower t) (MkCompany i name (parse_aliases alias_string)) = true ->
    contains (lower name) (lower t) = true \/
    exists a, In a (parse_aliases alias_string) /\ a <> [] /\
              contains (lower a) (lower t) = true.
Proof.
  assert (F : Forall (fun a => a <> [] /\ strip a = a /\ ~ In ","%char a)
                     (parse_aliases alias_string)).
  { unfold parse_aliases. destruct alias_string as [[|c s]|]; try constructor.
    apply Forall_map, Forall_forall. intros a Ha.
    apply filter_In in Ha. destruct Ha as [Ha Hne].
    split; [|split].
    - destruct (strip a); [discriminate|congruence].
    - apply strip_idempotent.
    - intros I. apply strip_incl in I.
      pose proof (split_on_no_sep ","%char (c :: s) [] (fun x => x)) as N.
      rewrite Forall_forall in N. exact (N a Ha I). }
  split; [exact F|].
  intros t i name M. apply company_matches_spec in M. cbn [company_name aliases] in M.
  destruct M as [M | M]; [now left|right].
  apply Exists_exists in M. destruct M as (a & Ia & Ca).
  exists a. rewrite Forall_forall in F. repeat split; auto. now apply F.
Qed.

(* ================================================================= *)
(** ** The validation gate *)

Lemma president_is_invalid_first : In (str "president") INVALID_FIRST_WORDS.
Proof. apply mem_In. vm_compute. reflexivity. Qed.

(** X4.  The rule of the gate against "President" followed by a political
    surname decides nothing: a name whose first word is "president" has
    been rejected by the invalid-first-word rule before, so the gate gives
    the same answer whatever the set of surnames is. *)
Theorem political_rule_never_decides (political : list text) (name : text) :
  valid_name_with political name = _is_valid_person_name name.
Proof.
  unfold valid_name_with, _is_valid_person_name. cbv zeta.
  destruct (negb (nonempty name)); [reflexivity|].
  destruct (mem (lower name) FALSE_POSITIVE_NAMES); [reflexivity|].
  destruct (negb _); [reflexivity|].
  destruct (mem _ INVALID_FIRST_WORDS) eqn:F; [reflexivity|].
  destruct (mem _ INVALID_LAST_WORDS); [reflexivity|].
  destruct (isupper _ && _); [reflexivity|].
  destruct (_ && mem _ publication_second_words); [reflexivity|].
  destruct (mem _ verbs_as_names); [reflexivity|].
  destruct (text_eqb (lower (word0 (split name))) "president") eqn:P.
  - apply text_eqb_eq in P. rewrite P in F.
    apply mem_not_In in F. destruct (F president_is_invalid_first).
  - now rewrite !andb_false_r.
Qed.

(* ================================================================= *)
(** ** De-duplication by URL *)

Lemma mem_ext (s1 s2 : list text) (u : text) :
  (forall v, In v s1 <-> In v s2) -> mem u s1 = mem u s2.
Proof.
  intros H. destruct (mem u s2) eqn:E.
  - apply mem_In. apply H. now apply mem_In.
  - apply mem_not_In. intros I. apply mem_not_In in E. apply E, H, I.
Qed.

Lemma unique_articles_ext (l : list RawArticle) :
  forall s1 s2, (forall v, In v s1 <-> In v s2) ->
                unique_articles s1 l = unique_articles s2 l.
Proof.
  induction l as [|a l IH]; intros s1 s2 H; cbn [unique_articles]; [reflexivity|].
  rewrite (mem_ext s1 s2 _ H). destruct (mem (a_link a) s2); cbn [negb].
  - now apply IH.
  - f_equal. apply IH. intros v. simpl. rewrite H. tauto.
Qed.

Lemma unique_articles_app (a b : list RawArticle) :
  forall seen,
    unique_articles seen (a ++ b)
    = unique_articles seen a ++ unique_articles (map a_link a ++ seen) b.
Proof.
  induction a as [|x a IH]; intros seen; cbn [app map unique_articles]; [reflexivity|].
  destruct (mem (a_link x) seen) eqn:M; cbn [negb].
  - rewrite IH. f_equal. apply unique_articles_ext. intros v. simpl.
    apply mem_In in M. rewrite !in_app_iff. split; [tauto|].
    intros [E | H]; [subst; tauto|tauto].
  - cbn [app]. f_equal. rewrite IH. f_equal. apply unique_articles_ext.
    intros v. simpl. rewrite !in_app_iff. simpl. tauto.
Qed.

Lemma unique_articles_fixed (l : list RawArticle) :
  forall seen,
    NoDup (map a_link l) ->
    (forall u, In u (map a_link l) -> ~ In u seen) ->
    unique_articles seen l = l.
Proof.
  induction l as [|a l IH]; intros seen N D; cbn [unique_articles]; [reflexivity|].
  replace (mem (a_link a) seen) with false
    by (symmetry; apply mem_not_In, D; now left).
  cbn [negb]. f_equal. inversion N; subst. apply IH; [assumption|].
  intros u Hu [E | I]; [subst; contradiction|].
  apply (D u); [now right|assumption].
Qed.

(** X5.  The pass that ends [fetch_google_news] keeps, for each link, the
    first article that carries it, in the order of the feeds: it invents
    no article, what it does to a batch does not depend on the articles
    that follow, and running it again changes nothing. *)
Theorem unique_articles_first_wins (l : list RawArticle) :
  (forall before x after,
     l = before ++ x :: after ->
     ~ In (a_link x) (map a_link before) ->
     In x (unique_articles [] l)) /\
  (forall x, In x (unique_articles [] l) -> In x l) /\
  (forall a b, l = a ++ b ->
     unique_articles [] l = unique_articles [] a ++ unique_articles (map a_link a) b) /\
  unique_articles [] (unique_articles [] l) = unique_articles [] l.
Proof.
  split; [|split; [|split]].
  - intros before x after -> H. rewrite unique_articles_app.
    apply in_or_app. right. cbn [unique_articles].
    rewrite app_nil_r.
    replace (mem (a_link x) (map a_link before)) with false
      by (symmetry; now apply mem_not_In).
    now left.
  - generalize (@nil text). induction l as [|a l IH]; intros seen x;
      cbn [unique_articles]; [tauto|].
    destruct (mem (a_link a) seen); cbn [negb].
    + intros H. right. eapply IH; eauto.
    + intros [E | H]; [now left|right; eapply IH; eauto].
  - intros a b ->. rewrite unique_articles_app. now rewrite app_nil_r.
  - apply unique_articles_fixed; [apply unique_articles_nodup|].
    intros u _ [].
Qed.

Lemma unique_articles_first_wins_witness :
  In linkless (unique_articles [] ([] ++ linkless :: [linkless])).
Proof.
  apply (proj1 (unique_articles_first_wins ([] ++ linkless :: [linkless]))
           [] linkless [linkless]).
  - reflexivity.
  - simpl. tauto.
Defined.

Lemma unique_announcements_ext (l : list Announcement) :
  forall s1 s2, (forall v, In v s1 <-> In v s2) ->
                unique_announcements s1 l = unique_announcements s2 l.
Proof.
  induction l as [|a l IH]; intros s1 s2 H; cbn [unique_announcements]; [reflexivity|].
  destruct (has_url a) as [u|].
  - rewrite (mem_ext s1 s2 _ H). destruct (mem u s2); cbn [negb].
    + now apply IH.
    + f_equal. apply IH. intros v. simpl. rewrite H. tauto.
  - f_equal. now apply IH.
Qed.

Lemma urls_of_app (a b : list Announcement) :
  urls_of (a ++ b) = urls_of a ++ urls_of b.
Proof.
  induction a as [|x a IH]; [reflexivity|]. cbn [app urls_of].
  destruct (has_url x); [cbn [app]; f_equal|]; exact IH.
Qed.

Lemma unique_announcements_app (a b : list Announcement) :
  forall seen,
    unique_announcements seen (a ++ b)
    = unique_announcements seen a ++ unique_announcements (urls_of a ++ seen) b.
Proof.
  induction a as [|x a IH]; intros seen; cbn [app urls_of unique_announcements];
    [reflexivity|].
  destruct (has_url x) as [u|] eqn:U.
  - destruct (mem u seen) eqn:M; cbn [negb].
    + rewrite IH. f_equal. apply unique_announcements_ext. intros v. simpl.
      apply mem_In in M. rewrite !in_app_iff. split; [tauto|].
      intros [E | H]; [subst; tauto|tauto].
    + cbn [app]. f_equal. rewrite IH. f_equal. apply unique_announcements_ext.
      intros v. simpl. rewrite !in_app_iff. simpl. tauto.
  - cbn [app]. f_equal. apply IH.
Qed.

Lemma unique_announcements_fixed (l : list Announcement) :
  forall seen,
    NoDup (urls_of l) ->
    (forall u, In u (urls_of l) -> ~ In u seen) ->
    unique_announcements seen l = l.
Proof.
  induction l as [|a l IH]; intros seen N D; cbn [unique_announcements];
    [reflexivity|].
  cbn [urls_of] in N, D. destruct (has_url a) as [u|].
  - replace (mem u seen) with false
      by (symmetry; apply mem_not_In, D; now left).
    cbn [negb]. f_equal. inversion N; subst. apply IH; [assumption|].
    intros v Hv [E | I]; [subst; contradiction|].
    apply (D v); [now right|assumption].
  - f_equal. now apply IH.
Qed.

Lemma in_urls_of (l : list Announcement) (ann : Announcement) (u : text) :
  In ann l -> has_url ann = Some u -> In u (urls_of l).
Proof.
  induction l as [|x l IH]; [tauto|]. intros [E | H] U; cbn [urls_of].
  - subst x. rewrite U. now left.
  - destruct (has_url x); [right|]; now apply IH.
Qed.

Lemma unique_announcements_incl (l : list Announcement) :
  forall seen x, In x (unique_announcements seen l) -> In x l.
Proof.
  induction l as [|a l IH]; intros seen x; cbn [unique_announcements]; [tauto|].
  destruct (has_url a) as [u|].
  - destruct (mem u seen); cbn [negb].
    + intros H. right. eapply IH; eauto.
    + intros [E | H]; [now left|right; eapply IH; eauto].
  - intros [E | H]; [now left|right; eapply IH; eauto].
Qed.

(** X6.  The pass that ends [fetch_all] keeps, for each non-empty URL, the
    first announcement that carries it; it invents no announcement, what
    it does to a batch does not depend on the announcements that follow,
    and running it again changes nothing. *)
Theorem unique_announcements_first_wins (l : list Announcement) :
  (forall before x after u,
     l = before ++ x :: after ->
     has_url x = Some u ->
     ~ In u (urls_of before) ->
     In x (unique_announcements [] l)) /\
  (forall x, In x (unique_announcements [] l) -> In x l) /\
  (forall a b, l = a ++ b ->
     unique_announcements [] l
     = unique_announcements [] a ++ unique_announcements (urls_of a) b) /\
  unique_announcements [] (unique_announcements [] l) = unique_announcements [] l.
Proof.
  split; [|split; [|split]].
  - intros before x after u -> U H. rewrite unique_announcements_app.
    apply in_or_app. right. cbn [unique_announcements]. rewrite U, app_nil_r.
    replace (mem u (urls_of before)) with false
      by (symmetry; now apply mem_not_In).
    now left.
  - apply unique_announcements_incl.
  - intros a b ->. rewrite unique_announcements_app. now rewrite app_nil_r.
  - apply unique_announcements_fixed; [apply unique_announcements_nodup|].
    intros u _ [].
Qed.

Lemma unique_announcements_first_wins_witness :
  unique_announcements [] ([linkless_announcement] ++ [linkless_announcement])
  = unique_announcements [] [linkless_announcement]
    ++ unique_announcements (urls_of [linkless_announcement]) [linkless_announcement].
Proof.
  apply (proj1 (proj2 (proj2 (unique_announcements_first_wins
           ([linkless_announcement] ++ [linkless_announcement]))))).
  reflexivity.
Defined.

(* ================================================================= *)
(** ** One aggregation run *)

Lemma find_company_in (t : text) (cs : list Company) (c : Company) :
  find_company_in_text t cs = Some c ->
  In c cs /\ company_matches (lower t) c = true.
Proof.
  unfold find_company_in_text. induction cs as [|x cs IH]; [discriminate|].
  cbn [first_company]. destruct (company_matches (lower t) x) eqn:M.
  - intros E. inversion E; subst. split; [now left|assumption].
  - intros E. apply IH in E. split; [now right|tauto].
Qed.

Section Run.

Variable soup_get_text : text -> text.
Variable date_parser_parse : text -> result datetime.
Variable now : Z.
Variable companies : list Company.

Let process := process_articles soup_get_text date_parser_parse now companies.

Let parse_one (article : RawArticle) (n : option Z) :=
  parse_article soup_get_text date_parser_parse now
    (a_title article) (a_content article) (Some (a_published article))
    (Some (a_link article)) (Some (a_source_name article)) n.

Lemma process_articles_app (a b : list RawArticle) target n :
  process (a ++ b) target n
  = (x <- process a target n ;; y <- process b target n ;; Ok (x ++ y)).
Proof.
  unfold process. induction a as [|art a IH]; cbn [app process_articles bind].
  - now destruct (process_articles _ _ _ _ b target n).
  - destruct (parse_article _ _ _ _ _ _ _ _ _) as [parsed|e]; cbn [bind];
      [|reflexivity].
    rewrite IH.
    destruct (process_articles _ _ _ _ a target n) as [x|e]; cbn [bind].
    + destruct (process_articles _ _ _ _ b target n) as [y|e]; cbn [bind].
      * destruct parsed as [c|]; [|reflexivity]. cbv zeta.
        destruct (match target with Some _ => _ | None => _ end);
          reflexivity.
      * destruct parsed as [c|]; [|reflexivity]. cbv zeta.
        destruct (match target with Some _ => _ | None => _ end);
          reflexivity.
    + reflexivity.
Qed.

Lemma process_articles_sound (articles : list RawArticle) target n :
  forall out,
    process articles target n = Ok out ->
    List.length out <= List.length articles /\
    Forall (fun ann =>
              exists article co,
                In article articles /\
                parse_one article n = Ok (Some (ann_parsed ann)) /\
                company_matches (lower (article_text article)) co = true /\
                attributed_to co ann /\
                match target with
                | Some tc => co = tc
                | None => find_company_in_text (article_text article) companies = Some co
                end) out.
Proof.
  unfold process, parse_one.
  induction articles as [|art articles IH]; intros out; cbn [process_articles].
  - intros E. inversion E. split; [auto|constructor].
  - destruct (parse_article _ _ _ _ _ _ _ _ _) as [parsed|e] eqn:P; cbn [bind];
      [|discriminate].
    destruct (process_articles _ _ _ _ articles target n) as [others|e];
      cbn [bind]; [|discriminate].
    destruct (IH others eq_refl) as [L F].
    assert (F' : Forall (fun ann =>
              exists article co,
                In article (art :: articles) /\
                parse_article soup_get_text date_parser_parse now
                  (a_title article) (a_content article)
                  (Some (a_published article)) (Some (a_link article))
                  (Some (a_source_name article)) n = Ok (Some (ann_parsed ann)) /\
                company_matches (lower (article_text article)) co = true /\
                attributed_to co ann /\
                match target with
                | Some tc => co = tc
                | None => find_company_in_text (article_text article) companies = Some co
                end) others).
    { eapply Forall_impl; [|exact F]. intros ann (a & co & I & H).
      exists a, co. split; [now right|exact H]. }
    destruct parsed as [c|].
    2:{ intros E. inversion E; subst. split; [simpl; lia|exact F']. }
    cbv zeta. fold (article_text art).
    destruct target as [tc|].
    + destruct (find_company_in_text (article_text art) [tc]) as [co|] eqn:Fd.
      * intros E. inversion E; subst. split; [simpl; lia|].
        constructor; [|exact F']. exists art, tc.
        apply find_company_in in Fd. destruct Fd as [[<- | []] M].
        repeat split; auto. now left.
      * intros E. inversion E; subst. split; [simpl; lia|exact F'].
    + destruct (find_company_in_text (article_text art) companies) as [co|] eqn:Fd.
      * intros E. inversion E; subst. split; [simpl; lia|].
        constructor; [|exact F']. exists art, co.
        pose proof (find_company_in _ _ _ Fd) as [_ M].
        repeat split; auto. now left.
      * intros E. inversion E; subst. split; [simpl; lia|exact F'].
Qed.

End Run.

(** X7.  Every announcement that [process_articles] yields comes from one
    of the articles, on which [parse_article] returned its parsed part, and
    carries the id and the name of a company whose name or alias occurs in
    the article as delivered: the target company when one is given, the
    first match among the tracked companies otherwise.  There are never
    more announcements than articles. *)
Theorem process_articles_attribution soup parse now companies articles target n out :
  process_articles soup parse now companies articles target n = Ok out ->
  List.length out <= List.length articles /\
  Forall (fun ann =>
            exists article co,
              In article articles /\
              parse_article soup parse now
                (a_title article) (a_content article) (Some (a_published article))
                (Some (a_link article)) (Some (a_source_name article)) n
              = Ok (Some (ann_parsed ann)) /\
              company_matches (lower (article_text article)) co = true /\
              attributed_to co ann /\
              match target with
              | Some tc => co = tc
              | None => find_company_in_text (article_text article) companies = Some co
              end) out.
Proof. apply process_articles_sound. Qed.

Lemma process_articles_attribution_witness :
  List.length [linkless_announcement] <= List.length [linkless] /\
  Forall (fun ann =>
            exists article co,
              In article [linkless] /\
              parse_article (fun s => s) refusing_parser sample_now
                (a_title article) (a_content article) (Some (a_published article))
                (Some (a_link article)) (Some (a_source_name article)) None
              = Ok (Some (ann_parsed ann)) /\
              company_matches (lower (article_text article)) co = true /\
              attributed_to co ann /\
              co = acme) [linkless_announcement].
Proof.
  apply (process_articles_attribution (fun s => s) refusing_parser sample_now
           [] [linkless] (Some acme) None [linkless_announcement]).
  vm_compute. reflexivity.
Defined.

(** X8.  [process_articles] works article by article: the announcements of
    a concatenation of batches are those of the batches, in order, and the
    call raises what the first failing batch raises.  So the announcements
    [fetch_for_company] returns are those of the Google News articles (after
    their de-duplication), of NewsAPI, of the newsroom and of PR Newswire,
    in this order. *)
Theorem process_articles_concat soup parse now companies (a b : list RawArticle) target n :
  process_articles soup parse now companies (a ++ b) target n
  = (x <- process_articles soup parse now companies a target n ;;
     y <- process_articles soup parse now companies b target n ;;
     Ok (x ++ y)) /\
  forall google newsapi newsroom prnewswire company,
    fetch_for_company soup parse now companies google newsapi newsroom prnewswire company
    = (let name := company_name company in
       let run l := process_articles soup parse now companies l (Some company) None in
       g <- run (unique_articles [] (google name)) ;;
       a <- run (newsapi name) ;;
       r <- run (newsroom name) ;;
       p <- run (prnewswire name) ;;
       Ok (g ++ a ++ r ++ p)).
Proof.
  split; [apply process_articles_app|].
  intros. cbv zeta. unfold fetch_for_company, fetch_google_news. cbv zeta.
  rewrite !process_articles_app.
  destruct (process_articles _ _ _ _ (unique_articles _ _) _ _) as [g|e];
    cbn [bind]; [|reflexivity].
  destruct (process_articles _ _ _ _ (newsapi _) _ _) as [a'|e];
    cbn [bind]; [|reflexivity].
  destruct (process_articles _ _ _ _ (newsroom _) _ _) as [r|e];
    cbn [bind]; [|reflexivity].
  destruct (process_articles _ _ _ _ (prnewswire _) _ _) as [p|e];
    cbn [bind]; reflexivity.
Qed.

Lemma fetch_companies_sound soup parse now companies google newsapi newsroom prnewswire
    (cs : list Company) :
  forall comp,
    fetch_companies soup parse now companies google newsapi newsroom prnewswire cs
    = Ok comp ->
    Forall (fun ann => exists co, In co cs /\ attributed_to co ann) comp.
Proof.
  induction cs as [|c cs IH]; intros comp; cbn [fetch_companies].
  - intros E. inversion E. constructor.
  - destruct (fetch_for_company _ _ _ _ _ _ _ _ c) as [x|e] eqn:Fc; cbn [bind];
      [|discriminate].
    destruct (fetch_companies _ _ _ _ _ _ _ _ cs) as [y|e]; cbn [bind];
      [|discriminate].
    intros E. inversion E; subst. apply Forall_app. split.
    + unfold fetch_for_company in Fc. cbv zeta in Fc.
      apply process_articles_sound in Fc. destruct Fc as [_ F].
      eapply Forall_impl; [|exact F].
      intros ann (art & co & _ & _ & _ & A & ->). exists c. split; [now left|exact A].
    + eapply Forall_impl; [|exact (IH y eq_refl)].
      intros ann (co & I & A). exists co. split; [now right|exact A].
Qed.

(** X9.  When a run of [fetch_all] returns: every announcement carries the
    id and the name of one of the tracked companies; no non-empty URL
    occurs twice; the announcements of the industry feeds come first,
    de-duplicated among themselves only, and a company-specific
    announcement whose URL an industry announcement already has is
    dropped. *)
Theorem fetch_all_output soup parse now companies industry google newsapi newsroom
    prnewswire out :
  fetch_all soup parse now companies industry google newsapi newsroom prnewswire
  = Ok out ->
  Forall (fun ann => exists co, In co companies /\ attributed_to co ann) out /\
  NoDup (urls_of out) /\
  exists ind comp,
    process_articles soup parse now companies industry None None = Ok ind /\
    fetch_companies soup parse now companies google newsapi newsroom prnewswire companies
    = Ok comp /\
    out = unique_announcements [] ind ++ unique_announcements (urls_of ind) comp /\
    forall ann u,
      In ann (unique_announcements (urls_of ind) comp) ->
      has_url ann = Some u -> ~ In u (urls_of ind).
Proof.
  unfold fetch_all.
  destruct (process_articles _ _ _ _ industry None None) as [ind|e] eqn:Pi;
    cbn [bind]; [|discriminate].
  destruct (fetch_companies _ _ _ _ _ _ _ _ companies) as [comp|e] eqn:Fc;
    cbn [bind]; [|discriminate].
  intros E. inversion E; subst out. clear E.
  split; [|split].
  - apply Forall_forall. intros ann I.
    apply unique_announcements_incl in I.
    apply in_app_or in I. destruct I as [I | I].
    + apply process_articles_sound in Pi. destruct Pi as [_ F].
      rewrite Forall_forall in F.
      destruct (F ann I) as (art & co & _ & _ & _ & A & Fd).
      apply find_company_in in Fd. exists co. tauto.
    + apply fetch_companies_sound in Fc. rewrite Forall_forall in Fc. auto.
  - apply unique_announcements_nodup.
  - exists ind, comp. repeat split; auto.
    + rewrite unique_announcements_app. now rewrite app_nil_r.
    + intros ann u I U Hu.
      pose proof (in_urls_of _ _ _ I U) as J.
      apply unique_announcements_urls in J. tauto.
Qed.

Lemma fetch_all_output_witness :
  NoDup (urls_of [linkless_announcement; linkless_announcement]).
Proof.
  apply (fetch_all_output (fun s => s) refusing_parser sample_now [acme] []
           no_articles twice no_articles no_articles
           [linkless_announcement; linkless_announcement]).
  vm_compute. reflexivity.
Defined.

(* ================================================================= *)
(** ** Substrings *)

Lemma starts_with_iff (n h : text) :
  starts_with n h = true <-> exists b, h = n ++ b.
Proof.
  revert h. induction n as [|c n IH]; intros h; cbn [starts_with].
  - split; [exists h; reflexivity|auto].
  - destruct h as [|d h].
    + split; [discriminate|]. intros (b & E). discriminate.
    + rewrite andb_true_iff, Ascii.eqb_eq, IH. split.
      * intros (-> & b & ->). now exists b.
      * intros (b & E). inversion E; subst. split; [reflexivity|now exists b].
Qed.

Lemma contains_iff (n h : text) :
  contains n h = true <-> exists a b, h = a ++ n ++ b.
Proof.
  split.
  - induction h as [|d h IH]; cbn [contains]; rewrite orb_true_iff.
    + intros [H | H]; [|discriminate]. apply starts_with_iff in H.
      destruct H as (b & ->). now exists [], b.
    + intros [H | H].
      * apply starts_with_iff in H. destruct H as (b & E). now exists [], b.
      * destruct (IH H) as (a & b & ->). now exists (d :: a), b.
  - intros (a & b & ->). apply contains_infix.
Qed.

Lemma contains_trans (a b c : text) :
  contains a b = true -> contains b c = true -> contains a c = true.
Proof.
  rewrite !contains_iff. intros (x & y & ->) (u & v & ->).
  exists (u ++ x), (y ++ v). now rewrite <- !app_assoc.
Qed.

Lemma contains_slice (t : text) (a b : nat) : contains (slice t a b) t = true.
Proof.
  apply contains_iff. unfold slice.
  exists (firstn a t), (skipn (b - a) (skipn a t)).
  now rewrite firstn_skipn, firstn_skipn.
Qed.

Lemma contains_strip (s : text) : contains (strip s) s = true.
Proof.
  apply contains_iff. destruct (strip_split s) as (ws1 & ws2 & E & _).
  now exists ws1, ws2.
Qed.

Lemma group1_contained (t : text) (m : rmatch) : contains (group1 t m) t = true.
Proof.
  unfold group1. destruct (m_grp m) as [[a b]|];
    [apply contains_slice|apply contains_nil].
Qed.

(* ================================================================= *)
(** ** What the extractors return *)

Lemma matches_classes_within (P : ascii -> Prop) r s w s' :
  matches r s w s' -> classes_within P r -> Forall P w.
Proof.
  induction 1; cbn [classes_within]; intros C;
    try (now constructor); try (apply Forall_app; split); try tauto; auto.
Qed.

Lemma name_body_classes : classes_within name_char name_body.
Proof.
  unfold name_body, name_char. cbn [seqs classes_within].
  unfold upper, lowers, spaces, Opt, Plus, chr. cbn [seqs classes_within].
  repeat split; intros c H; auto.
  apply Ascii.eqb_eq in H. auto.
Qed.

Lemma extract_person_name_contained (t name : text) :
  extract_person_name t = Some name -> contains name t = true.
Proof.
  unfold extract_person_name. rewrite first_name_first_match, first_match_some.
  intros (pre & p & post & E & _ & H).
  assert (Ip : In p name_patterns) by (rewrite E; apply in_elt).
  apply try_pattern_accepts in H; [|exact Ip].
  destruct H as (m & S & -> & V). apply group1_contained.
Qed.

(** X10.  A name that [extract_person_name] returns stands in the text as
    it is returned; it starts with a capital letter and ends with a small
    letter; and it is made of letters, whitespace and periods only. *)
Theorem extract_person_name_shape (t name : text) :
  extract_person_name t = Some name ->
  contains name t = true /\
  (exists c w d,
     name = c :: w ++ [d] /\ is_upper c = true /\ is_lower d = true) /\
  Forall name_char name.
Proof.
  unfold extract_person_name. rewrite first_name_first_match, first_match_some.
  intros (pre & p & post & E & _ & H).
  assert (Ip : In p name_patterns) by (rewrite E; apply in_elt).
  apply try_pattern_accepts in H; [|exact Ip].
  destruct H as (m & S & -> & V).
  split; [apply group1_contained|].
  pose proof name_patterns_groups as G. rewrite Forall_forall in G.
  destruct (search_group name_body p t m (G p Ip) S) as [N | (sa & sb & M)].
  - rewrite N in V. discriminate.
  - split; [now apply name_body_word in M|].
    eapply matches_classes_within; [exact M|apply name_body_classes].
Qed.

Lemma extract_person_name_shape_witness :
  contains "John Smith"
    "Tyson Foods announces John Smith has been appointed Chief Financial Officer."
  = true /\
  (exists c w d,
     str "John Smith" = c :: w ++ [d] /\ is_upper c = true /\ is_lower d = true) /\
  Forall name_char (str "John Smith").
Proof.
  apply (extract_person_name_shape
           "Tyson Foods announces John Smith has been appointed Chief Financial Officer."
           "John Smith").
  vm_compute. reflexivity.
Defined.

Lemma extract_title_contained (t r : text) :
  extract_title t = Some r -> contains r t = true.
Proof.
  rewrite extract_title_first_match, first_match_some.
  intros (pre & title & post & _ & _ & H). unfold title_attempt in H.
  destruct (search (title_pattern title) t) as [m|]; [|discriminate].
  inversion H; subst r. clear H. unfold widen_title. cbv zeta.
  destruct (search (full_title_pattern _) _) as [fm|].
  - eapply contains_trans; [apply contains_strip|].
    eapply contains_trans; [apply group1_contained|apply contains_slice].
  - apply contains_slice.
Qed.

(* ================================================================= *)
(** ** What [parse_article] returns, and when it raises *)

Lemma extract_action_label (t : text) : In (extract_action t) action_labels.
Proof.
  unfold extract_action. cbv zeta. set (l := lower t).
  repeat match goal with
         | |- context [contains ?w l] => destruct (contains w l)
         end; cbn [orb]; vm_compute; tauto.
Qed.

(** X11.  A Candidate that [parse_article] returns satisfies: the
    classifier accepted the title and the cleaned body; the person name
    passes the validation gate and stands in the working text; the action
    is one of the six labels; the stored text is the first 2000 characters,
    at most, of the working text; the URL and the source name are those
    passed in; and the announcement date is the day of the parsed feed
    date, absent exactly when the feed date is. *)
Theorem candidate_invariant soup parse now title content published_date url src n c :
  parse_article soup parse now title content published_date url src n = Ok (Some c) ->
  let body := cleaned_body soup content in
  let working := working_text soup title content in
  is_executive_move title body = true /\
  _is_valid_person_name (person_name c) = true /\
  contains (person_name c) working = true /\
  In (action c) action_labels /\
  raw_text c = firstn 2000 working /\ List.length (raw_text c) <= 2000 /\
  source_url c = url /\ source_name c = src /\
  exists d, parse_date parse published_date = Ok d /\
            announcement_date c = option_map date_of d.
Proof.
  unfold parse_article, working_text, cleaned_body. cbv zeta.
  set (body := if nonempty content then clean_html soup content else []).
  destruct (is_executive_move title body) eqn:Cl; cbn [negb]; [|discriminate].
  destruct (parse_date parse published_date) as [d|e]; cbn [bind]; [|discriminate].
  destruct (too_old now n d) as [[|]|e]; cbn [bind]; try discriminate.
  destruct (extract_person_name _) as [[|ch name]|] eqn:Nm; try discriminate.
  intros E.
  apply (f_equal (fun r => match r with Ok (Some x) => x | _ => c end)) in E.
  cbv beta iota in E. subst c.
  cbn [person_name action raw_text source_url source_name announcement_date].
  split; [reflexivity|].
  split; [now apply extract_person_name_valid in Nm|].
  split; [now apply extract_person_name_contained in Nm|].
  split; [apply extract_action_label|].
  split; [reflexivity|]. split; [apply firstn_le_length|].
  split; [reflexivity|]. split; [reflexivity|]. now exists d.
Qed.

Lemma candidate_invariant_witness :
  let body := cleaned_body (fun s => s) "" in
  let working := working_text (fun s => s) sample_title "" in
  let c := sample_candidate (Some 738610%Z) in
  is_executive_move sample_title body = true /\
  _is_valid_person_name (person_name c) = true /\
  contains (person_name c) working = true /\
  In (action c) action_labels /\
  raw_text c = firstn 2000 working /\ List.length (raw_text c) <= 2000 /\
  source_url c = None /\ source_name c = None /\
  exists d, parse_date sample_parser (Some (str "Sat, 01 Apr 2023 00:00:00 +0100")) = Ok d /\
            announcement_date c = option_map date_of d.
Proof.
  apply (candidate_invariant (fun s => s) sample_parser sample_now sample_title ""
           (Some (str "Sat, 01 Apr 2023 00:00:00 +0100")) None None None
           (sample_candidate (Some 738610%Z))).
  vm_compute. reflexivity.
Defined.




(** X13.  With a non-zero [max_age_days] whose cutoff is a [datetime], a
    feed date at the cutoff or after it changes nothing: [parse_article]
    returns what it returns without an age limit.  The date that equals
    the cutoff is kept. *)
Theorem age_filter_keeps_recent soup parse now title content published_date
    url src (n : Z) (d : datetime) (c : Z) :
  n <> 0%Z ->
  parse_date parse published_date = Ok (Some d) ->
  cutoff now n = Ok c ->
  (c <= naive d)%Z ->
  parse_article soup parse now title content published_date url src (Some n)
  = parse_article soup parse now title content published_date url src None.
Proof.
  intros Hn Hd Hc Hle. unfold parse_article. cbv zeta.
  destruct (negb (is_executive_move _ _)); [reflexivity|].
  rewrite Hd. cbn [bind too_old].
  apply Z.eqb_neq in Hn. rewrite Hn. cbn [negb]. rewrite Hc. cbn [bind].
  replace (naive d <? c)%Z with false by (symmetry; apply Z.ltb_ge; exact Hle).
  reflexivity.
Qed.

Lemma age_filter_keeps_recent_witness :
  parse_article (fun s => s) sample_parser sample_now sample_title ""
    (Some (str "Sat, 01 Apr 2023 00:00:00 +0100")) None None (Some 10%Z)
  = parse_article (fun s => s) sample_parser sample_now sample_title ""
      (Some (str "Sat, 01 Apr 2023 00:00:00 +0100")) None None None.
Proof.
  apply (age_filter_keeps_recent (fun s => s) sample_parser sample_now sample_title ""
           (Some (str "Sat, 01 Apr 2023 00:00:00 +0100")) None None 10 sample_date
           (738610 * us_per_day)).
  - discriminate.
  - reflexivity.
  - reflexivity.
  - unfold naive, sample_date, wall. lia.
Defined.

(* ================================================================= *)
(** ** Google News search URLs *)

Lemma percent_url_chars (b : nat) : b < 256 -> forallb url_char (percent b) = true.
Proof.
  intros H. unfold percent. cbn [forallb].
  assert (D : forall n, n < 16 -> url_char (hex_digit n) = true).
  { intros n Hn. do 16 (destruct n as [|n]; [reflexivity|]). lia. }
  rewrite !D; [reflexivity| |].
  - apply Nat.mod_upper_bound. lia.
  - apply Nat.Div0.div_lt_upper_bound. lia.
Qed.

Lemma quote_char_url_chars (c : ascii) : forallb url_char (quote_char c) = true.
Proof.
  destruct c as [[] [] [] [] [] [] [] []]; vm_compute; reflexivity.
Qed.

Lemma quote_url_chars (s : text) : forallb url_char (quote s) = true.
Proof.
  induction s as [|c s IH]; [reflexivity|].
  unfold quote. cbn [flat_map]. rewrite forallb_app, quote_char_url_chars.
  exact IH.
Qed.

Lemma quote_app (a b : text) : quote (a ++ b) = quote a ++ quote b.
Proof. apply flat_map_app. Qed.

Lemma format_google (v : text) :
  str_format "query" v GOOGLE_NEWS_RSS = Some (google_prefix ++ v ++ google_suffix).
Proof. reflexivity. Qed.

Lemma format_plain (field value l t : text) :
  forallb (fun c => negb (Ascii.eqb c "{" || Ascii.eqb c "}")) l = true ->
  format_scan field value None (l ++ t)
  = option_map (app l) (format_scan field value None t).
Proof.
  induction l as [|c l IH]; cbn [forallb app format_scan]; intros E.
  - now destruct (format_scan field value None t).
  - apply andb_true_iff in E. destruct E as [E1 E2].
    apply negb_true_iff, orb_false_iff in E1. destruct E1 as [-> ->].
    rewrite (IH E2). now destruct (format_scan field value None t).
Qed.

Lemma format_company_field (company t : text) :
  format_scan "company" company None (str "{company}" ++ t)
  = option_map (app company) (format_scan "company" company None t).
Proof. reflexivity. Qed.

Lemma format_company_query (company : text) (rest : string) :
  forallb (fun c => negb (Ascii.eqb c "{" || Ascii.eqb c "}")) (str rest) = true ->
  str_format "company" company (company_query rest)
  = Some (dq ++ company ++ dq ++ str rest).
Proof.
  intros H. unfold company_query, str_format.
  rewrite (format_plain _ _ dq) by reflexivity.
  rewrite format_company_field.
  rewrite <- (app_nil_r (dq ++ str rest)).
  rewrite (format_plain _ _ (dq ++ str rest))
    by (rewrite forallb_app; now rewrite H).
  cbn [format_scan option_map]. now rewrite !app_nil_r.
Qed.

Lemma build_with_query (company : text) (rest : string) :
  forallb (fun c => negb (Ascii.eqb c "{" || Ascii.eqb c "}")) (str rest) = true ->
  build_google_news_url company (Some (company_query rest))
  = Some (google_prefix ++ quote (dq ++ company ++ dq ++ str rest) ++ google_suffix).
Proof.
  intros H. unfold build_google_news_url. cbv zeta.
  assert (E : company_query rest
              = "034"%char :: (str "{company}" ++ dq ++ str rest)) by reflexivity.
  rewrite E. cbv beta iota. rewrite <- E.
  rewrite (format_company_query company rest H). apply format_google.
Qed.

(** X14.  Whatever the company name and the query template, a URL that
    [build_google_news_url] returns is the fixed Google News address and
    its fixed parameters around the escaped query, and the escaped query
    has only letters, digits, [_.-~/] and percent escapes: a company name
    can add no parameter to the URL.  For the templates of
    [EXECUTIVE_MOVE_QUERIES], and without a template, the query is the
    company name in double quotes followed by the search words. *)
Theorem google_news_url_escaped (company : text) :
  (forall query_template url,
     build_google_news_url company query_template = Some url ->
     exists q, url = google_prefix ++ q ++ google_suffix /\
               forallb url_char q = true) /\
  (forall query_template,
     In query_template EXECUTIVE_MOVE_QUERIES ->
     exists rest,
       query_template = dq ++ str "{company}" ++ dq ++ rest /\
       build_google_news_url company (Some query_template)
       = Some (google_prefix ++ quote (dq ++ company ++ dq ++ rest) ++ google_suffix)) /\
  (forall query_template,
     query_template = None \/ query_template = Some [] ->
     build_google_news_url company query_template
     = Some (google_prefix ++ quote (default_query company) ++ google_suffix)).
Proof.
  split; [|split].
  - intros query_template url. unfold build_google_news_url. cbv zeta.
    destruct (match query_template with Some (c :: t) => _ | _ => _ end) as [q|];
      [|discriminate].
    rewrite format_google. intros E. inversion E.
    exists (quote q). split; [reflexivity|apply quote_url_chars].
  - intros query_template H. unfold EXECUTIVE_MOVE_QUERIES in H.
    apply in_map_iff in H. destruct H as (rest & <- & H).
    exists (str rest). split; [reflexivity|]. apply build_with_query.
    revert rest H. apply Forall_forall. repeat constructor.
  - intros query_template [-> | ->]; unfold build_google_news_url; cbv zeta;
      apply format_google.
Qed.

Lemma google_news_url_escaped_witness :
  exists q,
    google_prefix ++ quote (default_query "Tyson & Sons") ++ google_suffix
    = google_prefix ++ q ++ google_suffix /\
    forallb url_char q = true.
Proof.
  apply (proj1 (google_news_url_escaped "Tyson & Sons") None).
  apply (proj2 (proj2 (google_news_url_escaped "Tyson & Sons")) None).
  now left.
Defined.

(** X15.  For every company name, [fetch_google_news] has six URLs to
    fetch, one for each of the first six query templates, and no two of
    them are equal. *)
Theorem google_news_urls_distinct (company : text) :
  List.length (google_news_urls company) = 6 /\
  Forall (fun u => u <> None) (google_news_urls company) /\
  NoDup (google_news_urls company).
Proof.
  set (f := fun rest : string =>
              Some (google_prefix ++ quote (dq ++ company ++ dq ++ str rest)
                      ++ google_suffix)).
  assert (E : google_news_urls company
              = map f [" appointed CEO"; " appointed president"; " names CEO";
                       " new CEO"; " promoted"; " hires"]%string).
  { unfold google_news_urls, EXECUTIVE_MOVE_QUERIES. cbn [firstn map].
    repeat (f_equal; [apply build_with_query; reflexivity|]). reflexivity. }
  rewrite E. split; [reflexivity|]. split.
  - apply Forall_forall. intros u H. apply in_map_iff in H.
    destruct H as (rest & <- & _). discriminate.
  - apply NoDup_map_NoDup_ForallPairs.
    + intros x y Hx Hy H. unfold f in H. inversion H as [H'].
      repeat match type of H' with
             | context [quote (company ++ ?b)] => rewrite (quote_app company b) in H'
             end.
      rewrite <- !app_assoc in H'. apply app_inv_head in H'.
      cbn [In] in Hx, Hy.
      repeat (destruct Hx as [<- | Hx]; [|]);
        try contradiction;
        repeat (destruct Hy as [<- | Hy]; [|]);
        try contradiction; try reflexivity;
        vm_compute in H'; discriminate H'.
    + repeat (constructor; [cbn [In]; intuition discriminate|]). constructor.
Qed.

(* ================================================================= *)
(** ** Titles, and the case of the text *)









(* ================================================================= *)
(** ** What a title is made of *)

Lemma is_space_lower (c : ascii) : is_space (to_lower c) = is_space c.
Proof.
  destruct c as [[] [] [] [] [] [] [] []]; vm_compute; reflexivity.
Qed.

Lemma starts_clean_lower (a b : text) :
  lower a = lower b -> starts_clean a = starts_clean b.
Proof.
  destruct a as [|c a], b as [|d b]; try discriminate; [reflexivity|].
  cbn [lower map starts_clean]. intros E. injection E as Ec _.
  now rewrite <- (is_space_lower c), Ec, is_space_lower.
Qed.

Lemma ends_clean_lower (a b : text) :
  lower a = lower b -> ends_clean a = ends_clean b.
Proof.
  intros E. unfold ends_clean. apply starts_clean_lower.
  unfold lower in *. now rewrite !map_rev, E.
Qed.

Lemma contains_lower (a b : text) :
  contains a b = true -> contains (lower a) (lower b) = true.
Proof.
  rewrite !contains_iff. intros (x & y & ->).
  exists (lower x), (lower y). now rewrite !lower_app.
Qed.

Lemma lstrip_keeps (x : text) :
  x <> [] -> starts_clean x = true ->
  forall a b, exists a', lstrip (a ++ x ++ b) = a' ++ x ++ b.
Proof.
  intros N C a b. induction a as [|c a (a' & IH)].
  - exists []. cbn [app]. apply lstrip_clean.
    destruct x; [congruence|exact C].
  - cbn [app lstrip]. destruct (is_space c).
    + now exists a'.
    + now exists (c :: a).
Qed.

Lemma rstrip_keeps (x : text) :
  x <> [] -> ends_clean x = true ->
  forall a b, exists b', rstrip (a ++ x ++ b) = a ++ x ++ b'.
Proof.
  intros N C a b. unfold rstrip.
  rewrite !rev_app_distr, <- app_assoc.
  destruct (lstrip_keeps (rev x)) with (a := rev b) (b := rev a) as (b' & E).
  - intros H. apply N. now rewrite <- (rev_involutive x), H.
  - exact C.
  - exists (rev b'). rewrite E, !rev_app_distr, !rev_involutive.
    now rewrite <- app_assoc.
Qed.

(** Stripping a text keeps what it contains, when that starts and ends with
    a visible character. *)
Lemma contains_strip_keeps (x y : text) :
  x <> [] -> starts_clean x = true -> ends_clean x = true ->
  contains x y = true -> contains x (strip y) = true.
Proof.
  intros N C1 C2 H. apply contains_iff in H. destruct H as (a & b & ->).
  unfold strip. destruct (lstrip_keeps x N C1 a b) as (a' & ->).
  destruct (rstrip_keeps x N C2 a' b) as (b' & ->).
  apply contains_infix.
Qed.

Lemma eat_spec (l : text) :
  forall p pv a b s',
    eat l (state_at p pv a b) = Some s' ->
    exists a', b = a' ++ rest s' /\
               s' = state_at p pv (a ++ a') (rest s') /\
               lower a' = lower l.
Proof.
  induction l as [|c l IH]; intros p pv a b s' H.
  - cbn [eat] in H. inversion H; subst s'. exists [].
    cbn [state_at rest]. rewrite app_nil_r. auto.
  - cbn [eat] in H. cbn [state_at rest] in H.
    destruct b as [|d b]; [discriminate|].
    destruct (Ascii.eqb _ _) eqn:E; [|discriminate].
    apply Ascii.eqb_eq in E.
    replace (advance d b (state_at p pv a (d :: b)))
      with (state_at p pv (a ++ [d]) b) in H.
    + apply IH in H. destruct H as (a' & Eb & Es & El).
      exists (d :: a'). rewrite <- app_assoc in Es. cbn [app] in Es.
      repeat split; [now rewrite Eb|assumption|].
      cbn [lower map]. unfold lower in El. now rewrite El, E.
    + unfold state_at, advance. cbn [pos prev rest grp].
      rewrite rev_app_distr, length_app. cbn. f_equal. lia.
Qed.

(** The text a title pattern matches is the title, up to case. *)
Lemma title_match_text (l t : text) (m : rmatch) :
  search (title_pattern l) t = Some m -> lower (group0 t m) = lower l.
Proof.
  intros S. apply search_from_some in S. destruct S as (a & b & E & M).
  rewrite title_match_at in M.
  destruct (at_boundary _); [|discriminate].
  destruct (eat l _) as [s'|] eqn:Et; [|discriminate].
  destruct (at_boundary s'); [|discriminate].
  inversion M; subst m. clear M.
  apply eat_spec in Et. destruct Et as (a' & Eb & Es & El).
  unfold group0. cbn [m_start m_end]. rewrite Es. cbn [state_at pos].
  rewrite E, Eb, length_app. cbn [Nat.add].
  now rewrite slice_inside.
Qed.

Lemma matches_lit_ci (l : text) :
  forall s w s', matches (lit_ci l) s w s' -> lower w = lower l.
Proof.
  unfold lit_ci. induction l as [|c l IH]; intros s w s' M.
  - cbn [map seqs] in M. now inversion M.
  - destruct l as [|c' l].
    + cbn [map seqs] in M. apply matches_cls_inv in M.
      destruct M as (d & -> & E). apply Ascii.eqb_eq in E.
      cbn [lower map]. now rewrite E.
    + change (seqs (map chr_ci (c :: c' :: l)))
        with (Seq (chr_ci c) (seqs (map chr_ci (c' :: l)))) in M.
      apply matches_seq_inv in M. destruct M as (w1 & s1 & w2 & M1 & M2 & ->).
      apply matches_cls_inv in M1. destruct M1 as (d & -> & E).
      apply Ascii.eqb_eq in E. apply IH in M2.
      cbn [app lower map]. unfold lower in M2. now rewrite M2, E.
Qed.

Lemma matches_grp_inv a s w s' :
  matches (Grp a) s w s' -> exists s1, matches a s w s1 /\ s' = set_grp (pos s) s1.
Proof. inversion 1; subst. eauto. Qed.

(** In a pattern that ends with its group, the group of a match is a word
    of the group's body. *)
Lemma search_last_group (a b body : regex) (t : text) (m : rmatch) :
  search (Seq a (Seq b (Grp body))) t = Some m ->
  exists sa sb, matches body sa (group1 t m) sb.
Proof.
  intros S. apply search_from_some in S. destruct S as (x & y & E & M).
  unfold match_at in M. destruct (run _ Some _) as [sf|] eqn:R; [|discriminate].
  injection M as <-.
  apply run_sound in R. destruct R as (w & s' & M & K). injection K as ->.
  apply matches_seq_inv in M. destruct M as (w1 & s1 & v1 & M1 & M & _).
  apply matches_seq_inv in M. destruct M as (w2 & s2 & v2 & M2 & M & _).
  apply matches_grp_inv in M. destruct M as (s3 & Mb & ->).
  exists s2, s3. unfold group1. cbn [m_grp set_grp grp].
  assert (I : inside t s2).
  { eapply inside_matches; [exact M2|]. eapply inside_matches; [exact M1|].
    exists x. split; [exact E|reflexivity]. }
  destruct I as (pre & Et & Ep).
  destruct (matches_rest _ _ _ _ Mb) as [Er Epos].
  replace (slice t (pos s2) (pos s3)) with v2; [exact Mb|].
  rewrite Epos, Ep, Et, Er. symmetry. apply slice_inside.
Qed.

Lemma titles_clean :
  Forall (fun title => title <> [] /\ starts_clean title = true /\
                       ends_clean title = true) EXECUTIVE_TITLES.
Proof.
  unfold EXECUTIVE_TITLES. apply Forall_map, Forall_forall.
  intros x H. split; [|revert x H; apply Forall_forall;
                       repeat constructor].
  revert x H. apply Forall_forall. repeat (constructor; [discriminate|]).
  constructor.
Qed.

Lemma contains_self (x : text) : contains x x = true.
Proof. apply contains_iff. exists [], []. now rewrite app_nil_r. Qed.

(** X17.  A title that [extract_title] returns stands in the text as it is
    returned, and contains, up to letter case, the title of the vocabulary
    that was matched: the widening adds words around the matched title and
    never loses it. *)
Theorem extract_title_sound (t r : text) :
  extract_title t = Some r ->
  contains r t = true /\
  exists title, In title EXECUTIVE_TITLES /\
                contains (lower title) (lower r) = true.
Proof.
  intros H. split; [now apply extract_title_contained|].
  rewrite extract_title_first_match, first_match_some in H.
  destruct H as (pre & title & post & E & _ & H). unfold title_attempt in H.
  destruct (search (title_pattern title) t) as [m|] eqn:S; [|discriminate].
  injection H as <-.
  assert (I : In title EXECUTIVE_TITLES) by (rewrite E; apply in_elt).
  exists title. split; [exact I|].
  pose proof (title_match_text _ _ _ S) as G.
  pose proof titles_clean as C. rewrite Forall_forall in C.
  destruct (C title I) as (N & C1 & C2).
  unfold widen_title. cbv zeta.
  set (g := group0 t m) in *.
  set (context := slice t _ _).
  destruct (search (full_title_pattern g) context) as [fm|] eqn:F.
  - unfold full_title_pattern in F. cbn [seqs] in F.
    apply search_last_group in F. destruct F as (sa & sb & M).
    apply matches_seq_inv in M. destruct M as (w1 & s1 & v1 & _ & M & Ew).
    apply matches_seq_inv in M. destruct M as (w2 & s2 & v2 & M2 & _ & ->).
    apply matches_lit_ci in M2.
    assert (L : lower w2 = lower title) by congruence.
    rewrite <- L. apply contains_lower. rewrite Ew.
    apply contains_strip_keeps.
    + intros ->. destruct title; [congruence|discriminate].
    + now rewrite (starts_clean_lower _ _ L).
    + now rewrite (ends_clean_lower _ _ L).
    + apply contains_infix.
  - rewrite G. apply contains_self.
Qed.

Lemma extract_title_sound_witness :
  contains "Senior Vice President" "Jane Doe appointed as Senior Vice President" = true /\
  exists title, In title EXECUTIVE_TITLES /\
                contains (lower title) (lower "Senior Vice President") = true.
Proof.
  apply (extract_title_sound "Jane Doe appointed as Senior Vice President"
           "Senior Vice President").
  vm_compute. reflexivity.
Defined.

(* ================================================================= *)
(** ** The classifier and the body *)

Lemma eat_extend (l x : text) :
  forall p pv a b s',
    eat l (state_at p pv a b) = Some s' ->
    eat l (state_at p pv a (b ++ x))
    = Some (MState (pos s') (prev s') (rest s' ++ x) None).
Proof.
  induction l as [|c l IH]; intros p pv a b s' H.
  - cbn [eat] in *. injection H as <-. reflexivity.
  - cbn [eat] in *. cbn [state_at rest] in *.
    destruct b as [|d b]; [discriminate|]. cbn [app].
    destruct (Ascii.eqb _ _); [|discriminate].
    assert (A : forall y, advance d y (state_at p pv a (d :: y))
                          = state_at p pv (a ++ [d]) y).
    { intros y. unfold state_at, advance. cbn [pos prev rest grp].
      rewrite rev_app_distr, length_app. cbn. f_equal. lia. }
    change (advance d (b ++ x) (state_at p pv a (d :: b ++ x)))
      with (advance d (b ++ x) (state_at p pv a (d :: (b ++ x)))).
    rewrite A in H. rewrite A. now apply IH.
Qed.

Lemma title_search_extend (l lt x : text) :
  l <> [] -> ends_clean l = true ->
  search (title_pattern l) (lt ++ sp) <> None ->
  search (title_pattern l) ((lt ++ sp) ++ x) <> None.
Proof.
  intros N C H Hx. unfold search in *.
  destruct (search_from _ 0 None (lt ++ sp)) as [m|] eqn:S; [clear H|congruence].
  apply search_from_some in S. destruct S as (a & b & E & M).
  rewrite title_match_at in M.
  destruct (at_boundary (state_at 0 None a b)) eqn:B0; [|discriminate].
  destruct (eat l _) as [s'|] eqn:Et; [|discriminate].
  destruct (at_boundary s') eqn:B1; [|discriminate]. clear M.
  pose proof (eat_extend l x _ _ _ _ _ Et) as Ex.
  apply eat_spec in Et. destruct Et as (a' & Eb & Es & El).
  assert (Na : a' <> []).
  { intros ->. destruct l; [congruence|discriminate]. }
  assert (Nr : rest s' <> []).
  { intros R. rewrite R, app_nil_r in Eb. subst b.
    pose proof (ends_clean_lower _ _ El) as Ce. rewrite C in Ce.
    apply (f_equal (@rev ascii)) in E. rewrite !rev_app_distr in E.
    cbn [sp rev app] in E. unfold ends_clean in Ce.
    destruct (rev a') as [|z ra] eqn:Ra.
    - apply Na. now rewrite <- (rev_involutive a'), Ra.
    - cbn [app] in E. injection E as <- _. discriminate. }
  pose proof (search_from_none (title_pattern l) ((lt ++ sp) ++ x) 0 None a (b ++ x) Hx)
    as Nm.
  rewrite title_match_at, Ex in Nm.
  assert (B0' : at_boundary (state_at 0 None a (b ++ x)) = true).
  { rewrite <- B0. unfold at_boundary, state_at. cbn [prev rest].
    subst b. destruct a' as [|z a']; [congruence|reflexivity]. }
  assert (B1' : at_boundary (MState (pos s') (prev s') (rest s' ++ x) None) = true).
  { rewrite <- B1. unfold at_boundary. cbn [prev rest].
    destruct (rest s'); [congruence|reflexivity]. }
  rewrite B0', B1' in Nm.
  assert (Et : (lt ++ sp) ++ x = a ++ b ++ x) by (now rewrite E, app_assoc).
  specialize (Nm Et). discriminate.
Qed.

Lemma titles_clean_lower :
  Forall (fun title => title <> [] /\ ends_clean title = true) EXECUTIVE_TITLES.
Proof.
  eapply Forall_impl; [|apply titles_clean]. intros x (N & _ & C). auto.
Qed.

(** X18.  The body can only add to the classification: when the headline
    alone is classified as an executive move, it is so with every body. *)
Theorem headline_classification_stays (title : text) :
  is_executive_move title [] = true ->
  forall content, is_executive_move title content = true.
Proof.
  unfold is_executive_move. cbv zeta. intros H content.
  replace (title ++ sp ++ content) with ((title ++ sp) ++ content)
    by (now rewrite <- app_assoc).
  replace (title ++ sp ++ []) with (title ++ sp) in H
    by (now rewrite app_nil_r).
  rewrite lower_app.
  destruct (existsb _ EXECUTIVE_KEYWORDS) eqn:K in H; cbn [negb] in H;
    [|discriminate].
  replace (existsb _ EXECUTIVE_KEYWORDS) with true.
  - cbn [negb]. rewrite existsb_exists in *. destruct H as (p & I & S).
    exists p. split; [exact I|]. unfold title_patterns in I.
    apply in_map_iff in I. destruct I as (l & <- & I).
    pose proof titles_clean_lower as C. rewrite Forall_forall in C.
    destruct (C l I) as [N Ce].
    rewrite lower_app in *. change (lower sp) with sp in *.
    destruct (search (title_pattern l) ((lower title ++ sp) ++ lower content))
      eqn:Sx; [reflexivity|].
    exfalso. apply (title_search_extend l (lower title) (lower content) N Ce);
      [|exact Sx].
    intros Z. now rewrite Z in S.
  - symmetry. rewrite existsb_exists in *. destruct K as (kw & I & Ck).
    exists kw. split; [exact I|]. apply contains_iff in Ck.
    destruct Ck as (a & b & ->). apply contains_iff.
    exists a, (b ++ lower content). now rewrite <- !app_assoc.
Qed.

Lemma headline_classification_stays_witness :
  is_executive_move sample_title "<p>Quarterly results were also published.</p>" = true.
Proof.
  apply (headline_classification_stays sample_title).
  vm_compute. reflexivity.
Defined.

(* ================================================================= *)
(** ** A run returns *)




